(** * SlimSynth: the control firmware and the control-ingestion contract

    The repository ships two sketches of the control firmware:
    - [OscilloscopeControl.ino], the joystick sketch (module [Joystick]);
    - an earlier potentiometer sketch (module [Pot]).
    Both are embedded below as one function per [loop()] iteration over the
    sketch's globals; the readings the iteration takes from the board
    (digital pin, ADC channels, [millis()]) are its inputs, and what it does
    to the outside world (serial writes, [delay]) is its event trace.

    The host-side engine (line parser, frequency smoother, phase
    accumulator) is not part of the firmware sources; module [Core] models
    it from the specification. *)

From Stdlib Require Import ZArith List String Ascii Bool Lia.
From Stdlib Require Import Sorting.Sorted.
From Stdlib Require Import DecimalString DecimalZ DecimalPos.
From Stdlib Require Import QArith Qround Qabs Qpower Qfield.
From Stdlib Require Import PrimFloat.

#[local] Set Warnings "-inexact-float".
Import ListNotations.

Open Scope Z_scope.

(** ** Arduino core primitives used by the sketches *)

Module Arduino.

(** Pin levels: [HIGH] is 1, [LOW] is 0; the sketches store them in [bool]. *)
Definition HIGH : bool := true.
Definition LOW : bool := false.

(** [int] is 16 bits on the ATmega328P, [long] 32 bits, [unsigned long]
    32 bits; arithmetic is on [Z] with the wrap-around written out. *)
Definition to_int (z : Z) : Z := (z + 32768) mod 65536 - 32768.
Definition to_long (z : Z) : Z := (z + 2147483648) mod 4294967296 - 2147483648.
Definition to_ulong (z : Z) : Z := z mod 4294967296.

(** [long map(long x, long in_min, long in_max, long out_min, long out_max)]
    of the Arduino core:
    [(x - in_min) * (out_max - out_min) / (in_max - in_min) + out_min],
    with C's division (truncating toward zero). *)
Definition map (x in_min in_max out_min out_max : Z) : Z :=
  to_long (Z.quot (to_long (to_long (x - in_min) * to_long (out_max - out_min)))
                  (to_long (in_max - in_min))
           + out_min).

(** [millis()]: the uptime in milliseconds as an [unsigned long]; the
    argument is the true uptime. *)
Definition millis (uptime : Z) : Z := to_ulong uptime.

(** [Serial.print(int)]: the decimal digits, with a leading minus sign for
    a negative value. *)
Definition Serial_print (n : Z) : string := NilZero.string_of_int (Z.to_int n).

(** [Serial.println(int)]: as [Serial.print], followed by CR LF. *)
Definition CR : ascii := ascii_of_nat 13.
Definition LF : ascii := ascii_of_nat 10.
Definition Serial_println (n : Z) : string :=
  Serial_print n ++ String CR (String LF EmptyString).

(** Which of the two transmission paths of [loop()] wrote a line. *)
Inductive path : Type := Immediate | Periodic.

End Arduino.

Import Arduino.

(** ** Text utilities used to state the line format *)

(** The pieces of [s] between the occurrences of [sep]. *)
Fixpoint split (sep : ascii) (s : string) : list string :=
  match s with
  | EmptyString => [EmptyString]
  | String c r =>
      if Ascii.eqb c sep then EmptyString :: split sep r
      else match split sep r with
           | [] => [String c EmptyString]
           | h :: t => String c h :: t
           end
  end.

(** Every character of [s] satisfies [p]. *)
Fixpoint all_chars (p : ascii -> bool) (s : string) : bool :=
  match s with
  | EmptyString => true
  | String c r => p c && all_chars p r
  end.

Definition is_ascii (c : ascii) : bool := (nat_of_ascii c <? 128)%nat.
Definition is_digit (c : ascii) : bool :=
  ((48 <=? nat_of_ascii c) && (nat_of_ascii c <=? 57))%nat.
Definition is_num_char (c : ascii) : bool := is_digit c || Ascii.eqb c "-".

(** The last character of a string. *)
Fixpoint last_char (s : string) : option ascii :=
  match s with
  | EmptyString => None
  | String c EmptyString => Some c
  | String _ r => last_char r
  end.

(** How often [c] occurs in [s]. *)
Fixpoint occurrences (c : ascii) (s : string) : nat :=
  match s with
  | EmptyString => O
  | String d r => ((if Ascii.eqb d c then 1 else 0) + occurrences c r)%nat
  end.

(** A control line of [n] fields: ASCII only, one line feed and that one
    at the very end, and [n] comma-separated pieces. *)
Definition csv_line (n : nat) (s : string) : Prop :=
  all_chars is_ascii s = true /\
  last_char s = Some LF /\
  occurrences LF s = 1%nat /\
  List.length (split "," s) = n.

(** ** The joystick sketch, [OscilloscopeControl.ino] *)

Module Joystick.

(** The sketch's mutable globals. *)
Record Globals : Type := {
  freq : Z;
  waveformType : Z;
  lastJoyButtonState : bool;
  lastSendTime : Z
}.

Definition sendInterval : Z := 20.

(** The state the sketch starts [loop()] in. *)
Definition init : Globals :=
  {| freq := 100; waveformType := 0; lastJoyButtonState := HIGH; lastSendTime := 0 |}.

(** What one [loop()] iteration reads from the board. *)
Record Inputs : Type := {
  button : bool;      (* digitalRead(joyButtonPin) *)
  pressX : Z;         (* analogRead(joyXPin) inside the button branch *)
  pressY : Z;         (* analogRead(joyYPin) inside the button branch *)
  joyX : Z;           (* analogRead(joyXPin) after the button branch *)
  joyY : Z;           (* analogRead(joyYPin) after the button branch *)
  uptime : Z          (* true uptime in ms when millis() is called *)
}.

(** What one iteration does to the outside world, in order. *)
Inductive event : Type :=
| Tx (p : path) (f x y w : Z)   (* one block of Serial.print calls *)
| Delay (ms : Z).

(** The bytes a [Tx] block puts on the wire:
    print(freq) print(",") print(xValue) print(",") print(yValue)
    print(",") println(waveformType). *)
Definition wire (f x y w : Z) : string :=
  Serial_print f ++ "," ++ Serial_print x ++ "," ++ Serial_print y ++ ","
    ++ Serial_println w.

Definition falling_edge (g : Globals) (i : Inputs) : bool :=
  Bool.eqb (button i) LOW && Bool.eqb (lastJoyButtonState g) HIGH.

(** One iteration of [loop()]. *)
Definition loop (g : Globals) (i : Inputs) : Globals * list event :=
  let joyButtonState := button i in
  (* if (joyButtonState == LOW && lastJoyButtonState == HIGH):
     waveformType = (waveformType + 1) % 8; send; delay(200) *)
  let '(waveformType1, ev_button) :=
    if falling_edge g i then
      let w := to_int (Z.rem (to_int (waveformType g + 1)) 8) in
      (w, [Tx Immediate (freq g) (pressX i) (pressY i) w; Delay 200])
    else (waveformType g, []) in
  (* lastJoyButtonState = joyButtonState, in the record below *)
  let xValue := joyX i in
  let yValue := joyY i in
  let sweepSpeed := to_int (map xValue 0 1023 2 100) in
  let currentTime := millis (uptime i) in
  (* if (currentTime - lastSendTime >= sendInterval): send;
     lastSendTime = currentTime *)
  let '(lastSendTime1, ev_send) :=
    if to_ulong (currentTime - lastSendTime g) >=? to_ulong sendInterval then
      (currentTime, [Tx Periodic (freq g) xValue yValue waveformType1])
    else (lastSendTime g, []) in
  (* freq += sweepSpeed; if (freq > 2000) freq = 100; delay(5) *)
  let freq1 := to_int (freq g + sweepSpeed) in
  let freq2 := if freq1 >? 2000 then 100 else freq1 in
  ({| freq := freq2; waveformType := waveformType1;
      lastJoyButtonState := joyButtonState; lastSendTime := lastSendTime1 |},
   ev_button ++ ev_send ++ [Delay 5]).

(** [loop()] called once per element of [ins]; the trace of each
    iteration is kept with the inputs it ran on. *)
Fixpoint run (g : Globals) (ins : list Inputs) : Globals * list (Inputs * list event) :=
  match ins with
  | [] => (g, [])
  | i :: rest =>
      let '(g1, ev) := loop g i in
      let '(g2, tr) := run g1 rest in
      (g2, (i, ev) :: tr)
  end.

(** All events of a run, in order. *)
Definition events (tr : list (Inputs * list event)) : list event :=
  flat_map snd tr.

Definition is_periodic (e : event) : bool :=
  match e with Tx Periodic _ _ _ _ => true | _ => false end.

Definition is_immediate (e : event) : bool :=
  match e with Tx Immediate _ _ _ _ => true | _ => false end.

(** The uptimes at which the iterations of a run wrote a periodic line. *)
Definition periodic_times (tr : list (Inputs * list event)) : list Z :=
  List.map (fun ie => uptime (fst ie))
           (filter (fun ie => existsb is_periodic (snd ie)) tr).

(** The ADC is 10 bits wide. *)
Definition adc (x : Z) : Prop := 0 <= x <= 1023.
Definition adc_inputs (i : Inputs) : Prop :=
  adc (pressX i) /\ adc (pressY i) /\ adc (joyX i) /\ adc (joyY i).

(** The line a [Tx] event puts on the wire. *)
Definition line_of (e : event) : option string :=
  match e with
  | Tx _ f x y w => Some (wire f x y w)
  | Delay _ => None
  end.

(** Invariants of the globals. *)
Definition freq_ok (g : Globals) : Prop := 100 <= freq g <= 2000.
Definition wave_ok (g : Globals) : Prop := 0 <= waveformType g <= 7.

(** The periodic branch of [loop()] is taken. *)
Definition due (g : Globals) (i : Inputs) : bool :=
  to_ulong (millis (uptime i) - lastSendTime g) >=? to_ulong sendInterval.

(** The sweep step of an iteration. *)
Definition sweepSpeed (i : Inputs) : Z := to_int (map (joyX i) 0 1023 2 100).

(** The frequency and waveform fields a [Tx] event carries. *)
Definition tx_freq (e : event) : option Z :=
  match e with
  | Tx _ f _ _ _ => Some f
  | Delay _ => None
  end.

Definition tx_wave (e : event) : option Z :=
  match e with
  | Tx _ _ _ _ w => Some w
  | Delay _ => None
  end.

(** An iteration at uptime [t] with the button up and the stick centred. *)
Definition idle (t : Z) : Inputs :=
  {| button := HIGH; pressX := 0; pressY := 0; joyX := 512; joyY := 300; uptime := t |}.

(** A short session: an idle iteration, a button press, the button held,
    the button released. *)
Definition session : list Inputs :=
  [ idle 1000;
    {| button := LOW; pressX := 512; pressY := 300; joyX := 512; joyY := 300; uptime := 1205 |};
    {| button := LOW; pressX := 0; pressY := 0; joyX := 1023; joyY := 300; uptime := 1210 |};
    {| button := HIGH; pressX := 0; pressY := 0; joyX := 0; joyY := 300; uptime := 1225 |} ].

End Joystick.

(** ** The potentiometer sketch *)

Module Pot.

Record Globals : Type := {
  freq : Z;
  waveformType : Z;
  lastButtonState : bool;
  lastSendTime : Z
}.

Definition sendInterval : Z := 20.

Definition init : Globals :=
  {| freq := 100; waveformType := 0; lastButtonState := HIGH; lastSendTime := 0 |}.

Record Inputs : Type := {
  button : bool;      (* digitalRead(buttonPin) *)
  pressPot : Z;       (* analogRead(potPin) inside the button branch *)
  pot : Z;            (* analogRead(potPin) after the button branch *)
  uptime : Z          (* true uptime in ms when millis() is called *)
}.

Inductive event : Type :=
| Tx (p : path) (f x w : Z)
| Delay (ms : Z).

(** print(freq) print(",") print(potValue) print(",") println(waveformType). *)
Definition wire (f x w : Z) : string :=
  Serial_print f ++ "," ++ Serial_print x ++ "," ++ Serial_println w.

Definition falling_edge (g : Globals) (i : Inputs) : bool :=
  Bool.eqb (button i) LOW && Bool.eqb (lastButtonState g) HIGH.

(** One iteration of [loop()]; it differs from the joystick sketch in
    reading one ADC channel and printing three fields. *)
Definition loop (g : Globals) (i : Inputs) : Globals * list event :=
  let buttonState := button i in
  let '(waveformType1, ev_button) :=
    if falling_edge g i then
      let w := to_int (Z.rem (to_int (waveformType g + 1)) 8) in
      (w, [Tx Immediate (freq g) (pressPot i) w; Delay 200])
    else (waveformType g, []) in
  let potValue := pot i in
  let sweepSpeed := to_int (map potValue 0 1023 2 100) in
  let currentTime := millis (uptime i) in
  let '(lastSendTime1, ev_send) :=
    if to_ulong (currentTime - lastSendTime g) >=? to_ulong sendInterval then
      (currentTime, [Tx Periodic (freq g) potValue waveformType1])
    else (lastSendTime g, []) in
  let freq1 := to_int (freq g + sweepSpeed) in
  let freq2 := if freq1 >? 2000 then 100 else freq1 in
  ({| freq := freq2; waveformType := waveformType1;
      lastButtonState := buttonState; lastSendTime := lastSendTime1 |},
   ev_button ++ ev_send ++ [Delay 5]).

Fixpoint run (g : Globals) (ins : list Inputs) : Globals * list (Inputs * list event) :=
  match ins with
  | [] => (g, [])
  | i :: rest =>
      let '(g1, ev) := loop g i in
      let '(g2, tr) := run g1 rest in
      (g2, (i, ev) :: tr)
  end.

Definition events (tr : list (Inputs * list event)) : list event :=
  flat_map snd tr.

Definition is_periodic (e : event) : bool :=
  match e with Tx Periodic _ _ _ => true | _ => false end.

Definition is_immediate (e : event) : bool :=
  match e with Tx Immediate _ _ _ => true | _ => false end.

Definition periodic_times (tr : list (Inputs * list event)) : list Z :=
  List.map (fun ie => uptime (fst ie))
           (filter (fun ie => existsb is_periodic (snd ie)) tr).

Definition adc (x : Z) : Prop := 0 <= x <= 1023.
Definition adc_inputs (i : Inputs) : Prop := adc (pressPot i) /\ adc (pot i).

Definition line_of (e : event) : option string :=
  match e with
  | Tx _ f x w => Some (wire f x w)
  | Delay _ => None
  end.

Definition freq_ok (g : Globals) : Prop := 100 <= freq g <= 2000.
Definition wave_ok (g : Globals) : Prop := 0 <= waveformType g <= 7.

Definition due (g : Globals) (i : Inputs) : bool :=
  to_ulong (millis (uptime i) - lastSendTime g) >=? to_ulong sendInterval.

Definition sweepSpeed (i : Inputs) : Z := to_int (map (pot i) 0 1023 2 100).

Definition tx_freq (e : event) : option Z :=
  match e with
  | Tx _ f _ _ => Some f
  | Delay _ => None
  end.

Definition tx_wave (e : event) : option Z :=
  match e with
  | Tx _ _ _ w => Some w
  | Delay _ => None
  end.

Definition idle (t : Z) : Inputs :=
  {| button := HIGH; pressPot := 0; pot := 512; uptime := t |}.

Definition session : list Inputs :=
  [ idle 1000;
    {| button := LOW; pressPot := 512; pot := 512; uptime := 1205 |};
    {| button := LOW; pressPot := 0; pot := 1023; uptime := 1210 |};
    {| button := HIGH; pressPot := 0; pot := 0; uptime := 1225 |} ].

End Pot.

(** ** The host-side engine, from the specification *)

Module Core.

(** Modelled from the spec: the control state the parser fills, whose code
    (the host application) is not among the firmware sources. The four
    fields are the four fields of a control line. *)
Record ControlState : Type := {
  frequency : Z;
  axisX : Z;
  axisY : Z;
  waveform : Z
}.

(** Modelled from the spec: a complete line ends with a newline; the body
    is what precedes it (and the carriage return [println] puts before
    it, when present). An incomplete line has no body. *)
Fixpoint chomp (s : string) : option string :=
  match s with
  | EmptyString => None
  | String c r =>
      match r with
      | EmptyString => if Ascii.eqb c LF then Some EmptyString else None
      | String d EmptyString =>
          if Ascii.eqb c CR && Ascii.eqb d LF then Some EmptyString
          else option_map (String c) (chomp r)
      | _ => option_map (String c) (chomp r)
      end
  end.

(** Modelled from the spec: a field is a decimal integer. *)
Definition parse_int (s : string) : option Z :=
  option_map Z.of_int (NilZero.int_of_string s).

(** Modelled from the spec: the comma-separated fields of a complete
    line. *)
Definition fields (line : string) : option (list string) :=
  option_map (split ",") (chomp line).

(** Modelled from the spec: the control-line parser of the host
    application, which is not among the firmware sources. A line is valid
    when it is complete and has exactly the four integer fields
    [frequency,axisX,axisY,waveform]. *)
Definition parse_line (line : string) : option ControlState :=
  match fields line with
  | Some [a; b; c; d] =>
      match parse_int a, parse_int b, parse_int c, parse_int d with
      | Some f, Some x, Some y, Some w =>
          Some {| frequency := f; axisX := x; axisY := y; waveform := w |}
      | _, _, _, _ => None
      end
  | _ => None
  end.

(** Modelled from the spec: a valid line replaces the state, a malformed
    one is discarded and nothing is raised. *)
Definition apply_line (st : ControlState) (line : string) : ControlState :=
  match parse_line line with
  | Some st' => st'
  | None => st
  end.

(** Modelled from the spec: one polling pass handles the queued lines in
    arrival order, so the last valid one wins. *)
Definition poll (st : ControlState) (lines : list string) : ControlState :=
  fold_left apply_line lines st.

(** Modelled from the spec: the frequency smoother of the host
    application, [current = current*0.95 + target*0.05], once per sample;
    exact rational arithmetic stands for the floating-point one. *)
Definition smooth (current target : Q) : Q :=
  (current * 0.95 + target * 0.05)%Q.

(** Modelled from the spec: the update applied once per sample, for [n]
    samples with a constant target. *)
Fixpoint smooth_n (n : nat) (current target : Q) : Q :=
  match n with
  | O => current
  | S k => smooth_n k (smooth current target) target
  end.

(** The share of the initial distance covered after [n] samples. *)
Definition progress (n : nat) (start target : Q) : Q :=
  ((smooth_n n start target - start) / (target - start))%Q.

(** Modelled from the spec: the same update on binary64 floats, the number
    type of the host application. *)
Definition smooth_float (current target : float) : float :=
  (current * 0.95 + target * 0.05)%float.

(** Modelled from the spec: [n] samples of it with a constant target. *)
Fixpoint smooth_float_n (n : nat) (current target : float) : float :=
  match n with
  | O => current
  | S k => smooth_float_n k (smooth_float current target) target
  end.

Definition progress_float (n : nat) (start target : float) : float :=
  ((smooth_float_n n start target - start) / (target - start))%float.

(** Modelled from the spec: the sample rate of the audio output contract. *)
Definition sampleRate : Q := 44100%Q.

(** Modelled from the spec: wrapping into the canonical domain
    [0, period) of the phase accumulator of the host application; the
    period is 1 for the phase proper. Exact rational arithmetic stands for
    the floating-point one. *)
Definition wrap (period x : Q) : Q :=
  (x - period * inject_Z (Qfloor (x / period)))%Q.

(** Modelled from the spec: the accumulator advances by
    [frequency/sampleRate] of a period per sample and is wrapped after
    every increment. *)
Definition advance (period phase freq : Q) : Q :=
  wrap period (phase + period * (freq / sampleRate))%Q.

(** Modelled from the spec: the phase after one sample per element of
    [freqs], the smoothed frequency at that sample, starting from 0. *)
Definition phase_after (period : Q) (freqs : list Q) : Q :=
  fold_left (advance period) freqs 0%Q.

(** The band of the target frequency. *)
Definition in_band (f : Q) : Prop := (100 <= f /\ f <= 2000)%Q.

(** A line is malformed when it is incomplete, has another number of
    fields than four, or has a field that is not an integer. *)
Definition malformed (line : string) : Prop :=
  forall fs, fields line = Some fs ->
    List.length fs <> 4%nat \/ exists s, In s fs /\ parse_int s = None.

(** The two lines the specification names. *)
Definition garbage_line : string := "garbage" ++ String LF EmptyString.
Definition sample_line : string := "250,512,300,3" ++ String LF EmptyString.

End Core.

(** ** Statement helpers *)

(** An optional field lies in [[lo, hi]]. *)
Definition field_in (lo hi : Z) (v : option Z) : Prop :=
  match v with
  | Some z => lo <= z <= hi
  | None => True
  end.

(** What an event wrote, if it wrote anything, is a control line of [n]
    fields. *)
Definition writes_csv (n : nat) (l : option string) : Prop :=
  match l with
  | Some s => csv_line n s
  | None => True
  end.

(** ** Spacing of time stamps *)

(** Successive elements of the list are at least [d] apart. *)
Definition spaced (d : Z) (l : list Z) : Prop :=
  StronglySorted (fun a b => a + d <= b) l.

(** The elements of [l] that fall in the window [[t, t + w)]. *)
Definition in_window (t w : Z) (l : list Z) : list Z :=
  filter (fun a => (t <=? a) && (a <? t + w)) l.

(** The uptimes read in successive iterations never decrease. *)
Definition monotone (l : list Z) : Prop :=
  StronglySorted Z.le l.

(** ** Notions for further properties of the sketches *)

(** The falling edges in a sequence of button reads that follows a read
    [prev]: a LOW read right after a HIGH one. *)
Fixpoint falling_edges (prev : bool) (reads : list bool) : nat :=
  match reads with
  | [] => O
  | b :: rest => ((if negb b && prev then 1 else 0) + falling_edges b rest)%nat
  end.

(** The number of iterations one sweep from 100 takes at step [s]. *)
Definition sweep_period (s : Z) : Z := 1900 / s + 1.

(** The joystick sketch seen as the potentiometer sketch: the Y axis
    dropped from the readings and from the lines. *)
Definition pot_globals (g : Joystick.Globals) : Pot.Globals :=
  {| Pot.freq := Joystick.freq g;
     Pot.waveformType := Joystick.waveformType g;
     Pot.lastButtonState := Joystick.lastJoyButtonState g;
     Pot.lastSendTime := Joystick.lastSendTime g |}.

Definition pot_inputs (i : Joystick.Inputs) : Pot.Inputs :=
  {| Pot.button := Joystick.button i;
     Pot.pressPot := Joystick.pressX i;
     Pot.pot := Joystick.joyX i;
     Pot.uptime := Joystick.uptime i |}.

Definition pot_event (e : Joystick.event) : Pot.event :=
  match e with
  | Joystick.Tx p f x _ w => Pot.Tx p f x w
  | Joystick.Delay ms => Pot.Delay ms
  end.

Definition pot_trace (tr : list (Joystick.Inputs * list Joystick.event))
  : list (Pot.Inputs * list Pot.event) :=
  List.map (fun ie => (pot_inputs (fst ie), List.map pot_event (snd ie))) tr.

(** Potentiometer readings seen as joystick readings with the Y axis at
    [y]. *)
Definition joy_inputs (y : Z) (i : Pot.Inputs) : Joystick.Inputs :=
  {| Joystick.button := Pot.button i;
     Joystick.pressX := Pot.pressPot i;
     Joystick.pressY := y;
     Joystick.joyX := Pot.pot i;
     Joystick.joyY := y;
     Joystick.uptime := Pot.uptime i |}.

(** The length of what an event wrote lies in [[lo, hi]]. *)
Definition line_length_in (lo hi : nat) (l : option string) : Prop :=
  match l with
  | Some s => (lo <= String.length s <= hi)%nat
  | None => True
  end.

(** The uptimes of a session stay below the rollover of [millis()]. *)
Definition before_rollover (l : list Z) : Prop :=
  Forall (fun t => t < 4294967296) l.

(** * Facts about the primitives *)

(** Case analysis on every branch condition in sight, each case closed by
    computation. *)
Ltac by_branches :=
  repeat match goal with
         | |- context [if ?b then _ else _] => destruct b
         end;
  reflexivity.

Section Wraps.

Lemma to_int_small (z : Z) : -32768 <= z < 32768 -> to_int z = z.
Proof.
  intros H. unfold to_int. rewrite Z.mod_small; lia.
Qed.

Lemma to_long_small (z : Z) : -2147483648 <= z < 2147483648 -> to_long z = z.
Proof.
  intros H. unfold to_long. rewrite Z.mod_small; lia.
Qed.

Lemma to_ulong_le (z : Z) : 0 <= z -> to_ulong z <= z.
Proof.
  intros H. unfold to_ulong. apply Z.mod_le; lia.
Qed.

(** The unsigned difference of two [millis()] readings is the true
    difference modulo 2^32. *)
Lemma ulong_diff (a b : Z) :
  to_ulong (to_ulong a - to_ulong b) = to_ulong (a - b).
Proof.
  unfold to_ulong. symmetry. apply Zminus_mod.
Qed.

End Wraps.

Section Map.

(** On ADC readings the sweep mapping is [x * 98 / 1023 + 2], no wrap. *)
Lemma map_adc (x : Z) :
  0 <= x <= 1023 -> map x 0 1023 2 100 = x * 98 / 1023 + 2.
Proof.
  intros H. unfold map.
  rewrite (to_long_small (x - 0)) by lia.
  rewrite (to_long_small (100 - 2)) by lia.
  rewrite (to_long_small (1023 - 0)) by lia.
  rewrite (to_long_small ((x - 0) * (100 - 2))) by lia.
  rewrite Z.quot_div_nonneg by lia.
  replace ((x - 0) * (100 - 2)) with (x * 98) by lia.
  replace (1023 - 0) with 1023 by lia.
  assert (0 <= x * 98 / 1023 <= 98).
  { split.
    - apply Z.div_pos; lia.
    - apply Z.div_le_upper_bound; lia. }
  apply to_long_small. lia.
Qed.

Lemma map_adc_range (x : Z) :
  0 <= x <= 1023 -> 2 <= map x 0 1023 2 100 <= 100.
Proof.
  intros H. rewrite map_adc by assumption.
  assert (0 <= x * 98 / 1023) by (apply Z.div_pos; lia).
  assert (x * 98 / 1023 <= 98) by (apply Z.div_le_upper_bound; lia).
  lia.
Qed.

Lemma map_adc_mono (x x' : Z) :
  0 <= x -> x <= x' -> x' <= 1023 ->
  map x 0 1023 2 100 <= map x' 0 1023 2 100.
Proof.
  intros H0 H1 H2. rewrite !map_adc by lia.
  apply Z.add_le_mono_r. apply Z.div_le_mono; lia.
Qed.

Lemma sweep_adc (x : Z) :
  0 <= x <= 1023 ->
  to_int (map x 0 1023 2 100) = map x 0 1023 2 100.
Proof.
  intros H. apply to_int_small. pose proof (map_adc_range x H). lia.
Qed.

End Map.

(** * Facts about the text utilities *)

Section Text.

Lemma string_app_assoc (a b c : string) :
  ((a ++ b) ++ c)%string = (a ++ (b ++ c))%string.
Proof.
  induction a as [|d a IH]; simpl; [reflexivity|].
  rewrite IH. reflexivity.
Qed.

Lemma all_chars_app (p : ascii -> bool) (a b : string) :
  all_chars p (a ++ b) = all_chars p a && all_chars p b.
Proof.
  induction a as [|c a IH]; simpl.
  - reflexivity.
  - rewrite IH. apply andb_assoc.
Qed.

Lemma all_chars_impl (p q : ascii -> bool) (s : string) :
  (forall c, p c = true -> q c = true) ->
  all_chars p s = true -> all_chars q s = true.
Proof.
  intros Hpq. induction s as [|c s IH]; simpl; [reflexivity|].
  intros H. apply andb_true_iff in H. destruct H as [Hc Hs].
  rewrite (Hpq c Hc), (IH Hs). reflexivity.
Qed.

Lemma occurrences_app (c : ascii) (a b : string) :
  occurrences c (a ++ b) = (occurrences c a + occurrences c b)%nat.
Proof.
  induction a as [|d a IH]; simpl; [reflexivity|].
  rewrite IH. lia.
Qed.

Lemma occurrences_none (c : ascii) (s : string) :
  all_chars (fun d => negb (Ascii.eqb d c)) s = true -> occurrences c s = 0%nat.
Proof.
  induction s as [|d s IH]; simpl; [reflexivity|].
  intros H. apply andb_true_iff in H. destruct H as [Hd Hs].
  apply negb_true_iff in Hd. rewrite Hd, (IH Hs). reflexivity.
Qed.

Lemma split_nonempty (sep : ascii) (s : string) : split sep s <> [].
Proof.
  destruct s as [|c s]; simpl; [discriminate|].
  destruct (Ascii.eqb c sep); [discriminate|].
  destruct (split sep s); discriminate.
Qed.

(** There is one more piece than there are separators. *)
Lemma split_length (sep : ascii) (s : string) :
  List.length (split sep s) = S (occurrences sep s).
Proof.
  induction s as [|c s IH]; simpl; [reflexivity|].
  destruct (Ascii.eqb c sep); simpl.
  - rewrite IH. reflexivity.
  - pose proof (split_nonempty sep s) as Hne.
    destruct (split sep s) as [|h t]; [contradiction|].
    simpl in *. exact IH.
Qed.

Lemma split_none (sep : ascii) (s : string) :
  occurrences sep s = 0%nat -> split sep s = [s].
Proof.
  induction s as [|c s IH]; simpl; [reflexivity|].
  destruct (Ascii.eqb c sep); simpl; [discriminate|].
  intros H. rewrite (IH H). reflexivity.
Qed.

Lemma split_app_sep (sep : ascii) (a b : string) :
  occurrences sep a = 0%nat ->
  split sep (a ++ String sep b) = a :: split sep b.
Proof.
  induction a as [|c a IH]; simpl.
  - intros _. rewrite Ascii.eqb_refl. reflexivity.
  - destruct (Ascii.eqb c sep); simpl; [discriminate|].
    intros H. rewrite (IH H). reflexivity.
Qed.

Lemma last_char_app (a : string) (c : ascii) (b : string) :
  last_char (a ++ String c b) = last_char (String c b).
Proof.
  induction a as [|d a IH]; [reflexivity|].
  change (String d a ++ String c b)%string with (String d (a ++ String c b)).
  cbn [last_char]. rewrite IH.
  destruct (a ++ String c b)%string eqn:E; [|reflexivity].
  destruct a; discriminate.
Qed.

Lemma num_char_ascii (c : ascii) : is_num_char c = true -> is_ascii c = true.
Proof.
  destruct c as [[] [] [] [] [] [] [] []]; vm_compute; congruence.
Qed.

Lemma num_char_not (c : ascii) :
  is_num_char c = true ->
  negb (Ascii.eqb c ",") = true /\ negb (Ascii.eqb c LF) = true /\
  negb (Ascii.eqb c CR) = true.
Proof.
  destruct c as [[] [] [] [] [] [] [] []]; vm_compute; intuition congruence.
Qed.

Lemma digit_num_char (c : ascii) : is_digit c = true -> is_num_char c = true.
Proof.
  unfold is_num_char. intros ->. reflexivity.
Qed.

Lemma uint_digits (d : Decimal.uint) :
  all_chars is_digit (NilEmpty.string_of_uint d) = true.
Proof.
  induction d; simpl; try assumption; reflexivity.
Qed.

(** [Serial.print] of an integer writes digits and possibly a minus sign,
    and at least one character. *)
Lemma Serial_print_chars (n : Z) : all_chars is_num_char (Serial_print n) = true.
Proof.
  unfold Serial_print.
  assert (U : forall d, all_chars is_num_char (NilZero.string_of_uint d) = true).
  { intros d. unfold NilZero.string_of_uint.
    destruct d; try reflexivity;
      apply (all_chars_impl is_digit); auto using digit_num_char, uint_digits;
      apply (uint_digits (_ d)). }
  destruct (Z.to_int n) as [d|d]; simpl.
  - apply U.
  - apply U.
Qed.

End Text.

(** * The line format of the two sketches *)

Section Wire.

Lemma Serial_print_ascii (n : Z) : all_chars is_ascii (Serial_print n) = true.
Proof.
  apply (all_chars_impl is_num_char); [apply num_char_ascii|apply Serial_print_chars].
Qed.

Lemma Serial_print_no (c : ascii) (n : Z) :
  is_num_char c = false -> occurrences c (Serial_print n) = 0%nat.
Proof.
  intros Hc. apply occurrences_none.
  apply (all_chars_impl is_num_char); [|apply Serial_print_chars].
  intros d Hd. apply negb_true_iff.
  destruct (Ascii.eqb_spec d c) as [->|]; [congruence|reflexivity].
Qed.

Lemma Serial_println_ascii (n : Z) : all_chars is_ascii (Serial_println n) = true.
Proof.
  unfold Serial_println. rewrite all_chars_app, Serial_print_ascii. reflexivity.
Qed.

Lemma Serial_println_commas (n : Z) : occurrences "," (Serial_println n) = 0%nat.
Proof.
  unfold Serial_println. rewrite occurrences_app, Serial_print_no by reflexivity.
  reflexivity.
Qed.

Lemma Serial_println_LF (n : Z) : occurrences LF (Serial_println n) = 1%nat.
Proof.
  unfold Serial_println. rewrite occurrences_app, Serial_print_no by reflexivity.
  reflexivity.
Qed.

Lemma Serial_println_last (n : Z) : last_char (Serial_println n) = Some LF.
Proof.
  unfold Serial_println. rewrite last_char_app. reflexivity.
Qed.

(** A field followed by a comma and the rest of the line. *)
Lemma field_comma_ascii (n : Z) (rest : string) :
  all_chars is_ascii rest = true ->
  all_chars is_ascii (Serial_print n ++ "," ++ rest) = true.
Proof.
  intros H. rewrite all_chars_app, Serial_print_ascii. simpl. exact H.
Qed.

Lemma field_comma_LF (n : Z) (rest : string) :
  occurrences LF (Serial_print n ++ "," ++ rest) = occurrences LF rest.
Proof.
  rewrite occurrences_app, Serial_print_no by reflexivity. reflexivity.
Qed.

Lemma field_comma_last (n : Z) (rest : string) :
  last_char (Serial_print n ++ "," ++ rest) = last_char ("," ++ rest).
Proof.
  apply last_char_app.
Qed.

Lemma field_comma_split (n : Z) (rest : string) :
  split "," (Serial_print n ++ "," ++ rest) = Serial_print n :: split "," rest.
Proof.
  apply split_app_sep. apply Serial_print_no. reflexivity.
Qed.

Lemma last_char_cons (c : ascii) (s : string) (d : ascii) :
  last_char s = Some d -> last_char (String c s) = Some d.
Proof.
  destruct s; [discriminate|]. intros H. exact H.
Qed.

(** The fields of a line of the joystick sketch are the four printed values. *)
Lemma joy_wire_fields (f x y w : Z) :
  split "," (Joystick.wire f x y w) =
  [Serial_print f; Serial_print x; Serial_print y; Serial_println w].
Proof.
  unfold Joystick.wire. rewrite !field_comma_split.
  rewrite split_none by apply Serial_println_commas. reflexivity.
Qed.

Lemma joy_wire_csv (f x y w : Z) : csv_line 4 (Joystick.wire f x y w).
Proof.
  unfold csv_line. rewrite joy_wire_fields. unfold Joystick.wire.
  repeat split.
  - repeat apply field_comma_ascii. apply Serial_println_ascii.
  - repeat (rewrite field_comma_last; apply last_char_cons).
    apply Serial_println_last.
  - rewrite !field_comma_LF. apply Serial_println_LF.
Qed.

(** The fields of a line of the potentiometer sketch are the three printed
    values. *)
Lemma pot_wire_fields (f x w : Z) :
  split "," (Pot.wire f x w) = [Serial_print f; Serial_print x; Serial_println w].
Proof.
  unfold Pot.wire. rewrite !field_comma_split.
  rewrite split_none by apply Serial_println_commas. reflexivity.
Qed.

Lemma pot_wire_csv (f x w : Z) : csv_line 3 (Pot.wire f x w).
Proof.
  unfold csv_line. rewrite pot_wire_fields. unfold Pot.wire.
  repeat split.
  - repeat apply field_comma_ascii. apply Serial_println_ascii.
  - repeat (rewrite field_comma_last; apply last_char_cons).
    apply Serial_println_last.
  - rewrite !field_comma_LF. apply Serial_println_LF.
Qed.

End Wire.

(** * One iteration and whole runs of the joystick sketch *)

Section JoystickLoop.

Import Joystick.

(** The waveform selector after a press, for a selector in range. *)
Lemma next_wave (w : Z) :
  0 <= w <= 7 -> to_int (Z.rem (to_int (w + 1)) 8) = (w + 1) mod 8.
Proof.
  intros H. rewrite (to_int_small (w + 1)) by lia.
  rewrite Z.rem_mod_nonneg by lia.
  pose proof (Z.mod_pos_bound (w + 1) 8 ltac:(lia)).
  apply to_int_small. lia.
Qed.

Lemma joy_loop_waveformType (g : Globals) (i : Inputs) :
  waveformType (fst (loop g i)) =
  if falling_edge g i then to_int (Z.rem (to_int (waveformType g + 1)) 8)
  else waveformType g.
Proof.
  unfold loop. by_branches.
Qed.

Lemma joy_loop_freq (g : Globals) (i : Inputs) :
  freq (fst (loop g i)) =
  if to_int (freq g + sweepSpeed i) >? 2000 then 100
  else to_int (freq g + sweepSpeed i).
Proof.
  unfold loop, sweepSpeed. by_branches.
Qed.

Lemma joy_loop_lastSendTime (g : Globals) (i : Inputs) :
  lastSendTime (fst (loop g i)) =
  if due g i then millis (uptime i) else lastSendTime g.
Proof.
  unfold loop, due. by_branches.
Qed.

Lemma joy_loop_button (g : Globals) (i : Inputs) :
  lastJoyButtonState (fst (loop g i)) = button i.
Proof.
  unfold loop. by_branches.
Qed.

(** The trace of one iteration: the button branch, then the periodic
    branch, then the loop delay. *)
Lemma joy_loop_events (g : Globals) (i : Inputs) :
  snd (loop g i) =
  (if falling_edge g i
   then [Tx Immediate (freq g) (pressX i) (pressY i) (waveformType (fst (loop g i)));
         Delay 200]
   else [])
  ++ (if due g i
      then [Tx Periodic (freq g) (joyX i) (joyY i) (waveformType (fst (loop g i)))]
      else [])
  ++ [Delay 5].
Proof.
  unfold loop, due. by_branches.
Qed.

Lemma joy_loop_periodic (g : Globals) (i : Inputs) :
  existsb is_periodic (snd (loop g i)) = due g i.
Proof.
  rewrite joy_loop_events.
  destruct (falling_edge g i); destruct (due g i); reflexivity.
Qed.

Lemma joy_loop_tx (g : Globals) (i : Inputs) (e : event) :
  In e (snd (loop g i)) ->
  (forall f, tx_freq e = Some f -> f = freq g) /\
  (forall w, tx_wave e = Some w -> w = waveformType (fst (loop g i))).
Proof.
  rewrite joy_loop_events.
  destruct (falling_edge g i); destruct (due g i); simpl;
    intros H; repeat (destruct H as [<-|H]); try contradiction;
    split; simpl; intros ? E; congruence.
Qed.

Lemma joy_wave_ok_loop (g : Globals) (i : Inputs) :
  wave_ok g -> wave_ok (fst (loop g i)).
Proof.
  unfold wave_ok. intros H. rewrite joy_loop_waveformType.
  destruct (falling_edge g i); [|assumption].
  rewrite next_wave by assumption.
  pose proof (Z.mod_pos_bound (waveformType g + 1) 8 ltac:(lia)). lia.
Qed.

(** With a 10-bit reading the frequency update does not wrap the [int]. *)
Lemma joy_loop_freq_adc (g : Globals) (i : Inputs) :
  freq_ok g -> adc (joyX i) ->
  2 <= sweepSpeed i <= 100 /\
  freq (fst (loop g i)) =
  if freq g + sweepSpeed i >? 2000 then 100 else freq g + sweepSpeed i.
Proof.
  unfold freq_ok, adc. intros Hg Hx.
  assert (Hs : 2 <= sweepSpeed i <= 100).
  { unfold sweepSpeed. rewrite sweep_adc by assumption.
    apply map_adc_range. assumption. }
  split; [assumption|].
  rewrite joy_loop_freq. rewrite to_int_small by lia. reflexivity.
Qed.

Lemma joy_freq_ok_loop (g : Globals) (i : Inputs) :
  freq_ok g -> adc (joyX i) -> freq_ok (fst (loop g i)).
Proof.
  intros Hg Hx. destruct (joy_loop_freq_adc g i Hg Hx) as [Hs E].
  unfold freq_ok in *. rewrite E.
  destruct (Z.gtb_spec (freq g + sweepSpeed i) 2000); lia.
Qed.

Lemma joy_run_cons (g : Globals) (i : Inputs) (rest : list Inputs) :
  run g (i :: rest) =
  (fst (run (fst (loop g i)) rest),
   (i, snd (loop g i)) :: snd (run (fst (loop g i)) rest)).
Proof.
  simpl. destruct (loop g i) as [g1 ev]. simpl.
  destruct (run g1 rest) as [g2 tr]. reflexivity.
Qed.

Lemma joy_run_wave (ins : list Inputs) (g : Globals) :
  wave_ok g ->
  wave_ok (fst (run g ins)) /\
  forall e w, In e (events (snd (run g ins))) -> tx_wave e = Some w -> 0 <= w <= 7.
Proof.
  revert g. induction ins as [|i rest IH]; intros g Hg.
  - simpl. split; [assumption|]. intros e w [].
  - rewrite joy_run_cons. simpl.
    pose proof (joy_wave_ok_loop g i Hg) as Hg1.
    destruct (IH _ Hg1) as [Hfin Hev].
    split; [assumption|].
    intros e w Hin Hw. unfold events in Hin. simpl in Hin.
    apply in_app_or in Hin. destruct Hin as [Hin|Hin].
    + destruct (joy_loop_tx g i e Hin) as [_ Hwv].
      rewrite (Hwv w Hw). exact Hg1.
    + exact (Hev e w Hin Hw).
Qed.

Lemma joy_run_freq (ins : list Inputs) (g : Globals) :
  freq_ok g -> Forall adc_inputs ins ->
  freq_ok (fst (run g ins)) /\
  forall e f, In e (events (snd (run g ins))) -> tx_freq e = Some f -> 100 <= f <= 2000.
Proof.
  revert g. induction ins as [|i rest IH]; intros g Hg Hadc.
  - simpl. split; [assumption|]. intros e f [].
  - rewrite joy_run_cons. simpl.
    inversion Hadc as [|? ? Hi Hrest]; subst.
    assert (Hx : adc (joyX i)) by (destruct Hi as (_ & _ & Hx & _); exact Hx).
    pose proof (joy_freq_ok_loop g i Hg Hx) as Hg1.
    destruct (IH _ Hg1 Hrest) as [Hfin Hev].
    split; [assumption|].
    intros e f Hin Hf. unfold events in Hin. simpl in Hin.
    apply in_app_or in Hin. destruct Hin as [Hin|Hin].
    + destruct (joy_loop_tx g i e Hin) as [Hfv _].
      rewrite (Hfv f Hf). exact Hg.
    + exact (Hev e f Hin Hf).
Qed.

End JoystickLoop.

(** * Spaced time stamps and how many fit in a window *)

Section Spacing.

Lemma spaced_filter (d : Z) (p : Z -> bool) (l : list Z) :
  spaced d l -> spaced d (filter p l).
Proof.
  unfold spaced. induction 1 as [|a l Hl IH Ha]; simpl.
  - constructor.
  - destruct (p a); [|assumption].
    constructor; [assumption|].
    apply Forall_forall. intros b Hb. apply filter_In in Hb.
    rewrite Forall_forall in Ha. apply Ha. tauto.
Qed.

(** Stamps [d] apart that all lie in a window of width [w] number at most
    [(w + d - 1) / d]. *)
Lemma spaced_count (d : Z) (l : list Z) :
  0 < d -> spaced d l ->
  forall lo w, Forall (fun a => lo <= a < lo + w) l -> l <> [] ->
  d * Z.of_nat (List.length l) <= w + d - 1.
Proof.
  intros Hd. unfold spaced. induction 1 as [|a l Hl IH Ha]; intros lo w Hwin Hne.
  - contradiction.
  - inversion Hwin as [|? ? Hwa Hwl]; subst.
    destruct l as [|b l'].
    + simpl. lia.
    + assert (Hwin' : Forall (fun c => a + d <= c < (a + d) + (lo + w - a - d)) (b :: l')).
      { rewrite Forall_forall in *. intros c Hc.
        specialize (Ha c Hc). specialize (Hwl c Hc). simpl in *. lia. }
      specialize (IH (a + d) (lo + w - a - d) Hwin' ltac:(discriminate)).
      change (List.length (a :: b :: l')) with (S (List.length (b :: l'))).
      rewrite Nat2Z.inj_succ. lia.
Qed.

Lemma in_window_bounds (t w : Z) (l : list Z) :
  Forall (fun a => t <= a < t + w) (in_window t w l).
Proof.
  apply Forall_forall. intros a Ha. unfold in_window in Ha.
  apply filter_In in Ha. destruct Ha as [_ Ha].
  apply andb_true_iff in Ha. destruct Ha as [H1 H2].
  apply Z.leb_le in H1. apply Z.ltb_lt in H2. lia.
Qed.

(** At most 50 stamps that are 20 ms apart fall into any one second. *)
Lemma spaced_rate (l : list Z) (t : Z) :
  spaced 20 l -> (List.length (in_window t 1000 l) <= 50)%nat.
Proof.
  intros Hs.
  destruct (in_window t 1000 l) as [|a r] eqn:E; [simpl; lia|].
  rewrite <- E.
  assert (Hne : in_window t 1000 l <> []) by (rewrite E; discriminate).
  pose proof (spaced_count 20 (in_window t 1000 l) ltac:(lia)
                (spaced_filter 20 _ l Hs) t 1000 (in_window_bounds t 1000 l) Hne).
  lia.
Qed.

Lemma spaced_head (d a : Z) (l : list Z) :
  spaced d (a :: l) -> spaced d l /\ Forall (fun b => a + d <= b) l.
Proof.
  unfold spaced. intros H. inversion H; subst. split; assumption.
Qed.

Lemma monotone_head (a b : Z) (l : list Z) :
  monotone (a :: b :: l) -> a <= b /\ monotone (b :: l) /\ monotone (a :: l).
Proof.
  unfold monotone. intros H. inversion H as [|? ? Hbl Ha]; subst.
  inversion Ha as [|? ? Hab Hal]; subst.
  inversion Hbl as [|? ? Hl Hb]; subst.
  repeat split; try assumption. constructor; assumption.
Qed.

(** The test of the periodic branch, read on true uptimes: when the
    previous stamp [t0] is not after [t], the branch is taken only if at
    least 20 ms lie between them. *)
Lemma due_elapsed (t0 t : Z) :
  t0 <= t ->
  (to_ulong (millis t - to_ulong t0) >=? 20) = true -> t0 + 20 <= t.
Proof.
  intros Hle H. unfold millis in H. rewrite ulong_diff in H.
  apply Z.geb_le in H.
  pose proof (to_ulong_le (t - t0) ltac:(lia)). lia.
Qed.

End Spacing.

Section JoystickTiming.

Import Joystick.

Lemma joy_periodic_cons (g : Globals) (i : Inputs) (rest : list Inputs) :
  periodic_times (snd (run g (i :: rest))) =
  (if due g i then [uptime i] else [])
  ++ periodic_times (snd (run (fst (loop g i)) rest)).
Proof.
  rewrite joy_run_cons. unfold periodic_times. simpl.
  rewrite joy_loop_periodic. destruct (due g i); reflexivity.
Qed.

(** From any state whose [lastSendTime] is the reading taken at uptime
    [t0], the periodic lines of a run whose uptimes do not decrease are
    written at least 20 ms apart, and at least 20 ms after [t0]. *)
Lemma joy_periodic_spaced (ins : list Inputs) (g : Globals) (t0 : Z) :
  lastSendTime g = to_ulong t0 ->
  monotone (t0 :: List.map uptime ins) ->
  spaced 20 (t0 :: periodic_times (snd (run g ins))).
Proof.
  revert g t0. induction ins as [|i rest IH]; intros g t0 Hlast Hmono.
  - simpl. repeat constructor.
  - simpl in Hmono. apply monotone_head in Hmono.
    destruct Hmono as (Hle & Hrest & Hskip).
    rewrite joy_periodic_cons.
    destruct (due g i) eqn:Hdue; simpl.
    + assert (Hgap : t0 + 20 <= uptime i).
      { apply due_elapsed; [assumption|].
        unfold due, sendInterval in Hdue. rewrite Hlast in Hdue.
        change (to_ulong 20) with 20 in Hdue. exact Hdue. }
      assert (Hnext : lastSendTime (fst (loop g i)) = to_ulong (uptime i)).
      { rewrite joy_loop_lastSendTime, Hdue. reflexivity. }
      specialize (IH _ _ Hnext Hrest).
      destruct (spaced_head _ _ _ IH) as [_ Hall].
      constructor; [exact IH|].
      constructor; [exact Hgap|].
      rewrite Forall_forall in *. intros b Hb. specialize (Hall b Hb). lia.
    + assert (Hnext : lastSendTime (fst (loop g i)) = to_ulong t0).
      { rewrite joy_loop_lastSendTime, Hdue. exact Hlast. }
      exact (IH _ _ Hnext Hskip).
Qed.

End JoystickTiming.


(** * One iteration and whole runs of the potentiometer sketch *)

Section PotLoop.

Import Pot.

Lemma pot_loop_waveformType (g : Globals) (i : Inputs) :
  waveformType (fst (loop g i)) =
  if falling_edge g i then to_int (Z.rem (to_int (waveformType g + 1)) 8)
  else waveformType g.
Proof.
  unfold loop. by_branches.
Qed.

Lemma pot_loop_freq (g : Globals) (i : Inputs) :
  freq (fst (loop g i)) =
  if to_int (freq g + sweepSpeed i) >? 2000 then 100
  else to_int (freq g + sweepSpeed i).
Proof.
  unfold loop, sweepSpeed. by_branches.
Qed.

Lemma pot_loop_lastSendTime (g : Globals) (i : Inputs) :
  lastSendTime (fst (loop g i)) =
  if due g i then millis (uptime i) else lastSendTime g.
Proof.
  unfold loop, due. by_branches.
Qed.

Lemma pot_loop_button (g : Globals) (i : Inputs) :
  lastButtonState (fst (loop g i)) = button i.
Proof.
  unfold loop. by_branches.
Qed.

(** The trace of one iteration: the button branch, then the periodic
    branch, then the loop delay. *)
Lemma pot_loop_events (g : Globals) (i : Inputs) :
  snd (loop g i) =
  (if falling_edge g i
   then [Tx Immediate (freq g) (pressPot i) (waveformType (fst (loop g i)));
         Delay 200]
   else [])
  ++ (if due g i
      then [Tx Periodic (freq g) (pot i) (waveformType (fst (loop g i)))]
      else [])
  ++ [Delay 5].
Proof.
  unfold loop, due. by_branches.
Qed.

Lemma pot_loop_periodic (g : Globals) (i : Inputs) :
  existsb is_periodic (snd (loop g i)) = due g i.
Proof.
  rewrite pot_loop_events.
  destruct (falling_edge g i); destruct (due g i); reflexivity.
Qed.

Lemma pot_loop_tx (g : Globals) (i : Inputs) (e : event) :
  In e (snd (loop g i)) ->
  (forall f, tx_freq e = Some f -> f = freq g) /\
  (forall w, tx_wave e = Some w -> w = waveformType (fst (loop g i))).
Proof.
  rewrite pot_loop_events.
  destruct (falling_edge g i); destruct (due g i); simpl;
    intros H; repeat (destruct H as [<-|H]); try contradiction;
    split; simpl; intros ? E; congruence.
Qed.

Lemma pot_wave_ok_loop (g : Globals) (i : Inputs) :
  wave_ok g -> wave_ok (fst (loop g i)).
Proof.
  unfold wave_ok. intros H. rewrite pot_loop_waveformType.
  destruct (falling_edge g i); [|assumption].
  rewrite next_wave by assumption.
  pose proof (Z.mod_pos_bound (waveformType g + 1) 8 ltac:(lia)). lia.
Qed.

(** With a 10-bit reading the frequency update does not wrap the [int]. *)
Lemma pot_loop_freq_adc (g : Globals) (i : Inputs) :
  freq_ok g -> adc (pot i) ->
  2 <= sweepSpeed i <= 100 /\
  freq (fst (loop g i)) =
  if freq g + sweepSpeed i >? 2000 then 100 else freq g + sweepSpeed i.
Proof.
  unfold freq_ok, adc. intros Hg Hx.
  assert (Hs : 2 <= sweepSpeed i <= 100).
  { unfold sweepSpeed. rewrite sweep_adc by assumption.
    apply map_adc_range. assumption. }
  split; [assumption|].
  rewrite pot_loop_freq. rewrite to_int_small by lia. reflexivity.
Qed.

Lemma pot_freq_ok_loop (g : Globals) (i : Inputs) :
  freq_ok g -> adc (pot i) -> freq_ok (fst (loop g i)).
Proof.
  intros Hg Hx. destruct (pot_loop_freq_adc g i Hg Hx) as [Hs E].
  unfold freq_ok in *. rewrite E.
  destruct (Z.gtb_spec (freq g + sweepSpeed i) 2000); lia.
Qed.

Lemma pot_run_cons (g : Globals) (i : Inputs) (rest : list Inputs) :
  run g (i :: rest) =
  (fst (run (fst (loop g i)) rest),
   (i, snd (loop g i)) :: snd (run (fst (loop g i)) rest)).
Proof.
  simpl. destruct (loop g i) as [g1 ev]. simpl.
  destruct (run g1 rest) as [g2 tr]. reflexivity.
Qed.

Lemma pot_run_wave (ins : list Inputs) (g : Globals) :
  wave_ok g ->
  wave_ok (fst (run g ins)) /\
  forall e w, In e (events (snd (run g ins))) -> tx_wave e = Some w -> 0 <= w <= 7.
Proof.
  revert g. induction ins as [|i rest IH]; intros g Hg.
  - simpl. split; [assumption|]. intros e w [].
  - rewrite pot_run_cons. simpl.
    pose proof (pot_wave_ok_loop g i Hg) as Hg1.
    destruct (IH _ Hg1) as [Hfin Hev].
    split; [assumption|].
    intros e w Hin Hw. unfold events in Hin. simpl in Hin.
    apply in_app_or in Hin. destruct Hin as [Hin|Hin].
    + destruct (pot_loop_tx g i e Hin) as [_ Hwv].
      rewrite (Hwv w Hw). exact Hg1.
    + exact (Hev e w Hin Hw).
Qed.

Lemma pot_run_freq (ins : list Inputs) (g : Globals) :
  freq_ok g -> Forall adc_inputs ins ->
  freq_ok (fst (run g ins)) /\
  forall e f, In e (events (snd (run g ins))) -> tx_freq e = Some f -> 100 <= f <= 2000.
Proof.
  revert g. induction ins as [|i rest IH]; intros g Hg Hadc.
  - simpl. split; [assumption|]. intros e f [].
  - rewrite pot_run_cons. simpl.
    inversion Hadc as [|? ? Hi Hrest]; subst.
    assert (Hx : adc (pot i)) by (destruct Hi as (_ & Hx); exact Hx).
    pose proof (pot_freq_ok_loop g i Hg Hx) as Hg1.
    destruct (IH _ Hg1 Hrest) as [Hfin Hev].
    split; [assumption|].
    intros e f Hin Hf. unfold events in Hin. simpl in Hin.
    apply in_app_or in Hin. destruct Hin as [Hin|Hin].
    + destruct (pot_loop_tx g i e Hin) as [Hfv _].
      rewrite (Hfv f Hf). exact Hg.
    + exact (Hev e f Hin Hf).
Qed.

End PotLoop.

Section PotTiming.

Import Pot.

Lemma pot_periodic_cons (g : Globals) (i : Inputs) (rest : list Inputs) :
  periodic_times (snd (run g (i :: rest))) =
  (if due g i then [uptime i] else [])
  ++ periodic_times (snd (run (fst (loop g i)) rest)).
Proof.
  rewrite pot_run_cons. unfold periodic_times. simpl.
  rewrite pot_loop_periodic. destruct (due g i); reflexivity.
Qed.

(** From any state whose [lastSendTime] is the reading taken at uptime
    [t0], the periodic lines of a run whose uptimes do not decrease are
    written at least 20 ms apart, and at least 20 ms after [t0]. *)
Lemma pot_periodic_spaced (ins : list Inputs) (g : Globals) (t0 : Z) :
  lastSendTime g = to_ulong t0 ->
  monotone (t0 :: List.map uptime ins) ->
  spaced 20 (t0 :: periodic_times (snd (run g ins))).
Proof.
  revert g t0. induction ins as [|i rest IH]; intros g t0 Hlast Hmono.
  - simpl. repeat constructor.
  - simpl in Hmono. apply monotone_head in Hmono.
    destruct Hmono as (Hle & Hrest & Hskip).
    rewrite pot_periodic_cons.
    destruct (due g i) eqn:Hdue; simpl.
    + assert (Hgap : t0 + 20 <= uptime i).
      { apply due_elapsed; [assumption|].
        unfold due, sendInterval in Hdue. rewrite Hlast in Hdue.
        change (to_ulong 20) with 20 in Hdue. exact Hdue. }
      assert (Hnext : lastSendTime (fst (loop g i)) = to_ulong (uptime i)).
      { rewrite pot_loop_lastSendTime, Hdue. reflexivity. }
      specialize (IH _ _ Hnext Hrest).
      destruct (spaced_head _ _ _ IH) as [_ Hall].
      constructor; [exact IH|].
      constructor; [exact Hgap|].
      rewrite Forall_forall in *. intros b Hb. specialize (Hall b Hb). lia.
    + assert (Hnext : lastSendTime (fst (loop g i)) = to_ulong t0).
      { rewrite pot_loop_lastSendTime, Hdue. exact Hlast. }
      exact (IH _ _ Hnext Hskip).
Qed.

End PotTiming.

(** * The control-line parser *)

Section Parser.

Import Core.

Lemma chomp_crlf (body : string) :
  chomp (body ++ String CR (String LF EmptyString)) = Some body.
Proof.
  induction body as [|c body IH]; [reflexivity|].
  change (String c body ++ String CR (String LF EmptyString))%string
    with (String c (body ++ String CR (String LF EmptyString))).
  cbn [chomp]. rewrite IH.
  destruct body as [|d body]; [reflexivity|].
  cbn [append]. destruct body; reflexivity.
Qed.

(** Reading back what [Serial.print] wrote gives the integer printed. *)
Lemma parse_int_print (n : Z) : parse_int (Serial_print n) = Some n.
Proof.
  unfold parse_int, Serial_print.
  rewrite NilZero.isi.
  - simpl. rewrite DecimalZ.of_to. reflexivity.
  - destruct n; simpl; try discriminate.
    intros E. injection E as E. exact (Unsigned.to_uint_nonnil _ E).
  - destruct n; simpl; try discriminate.
    intros E. injection E as E. exact (Unsigned.to_uint_nonnil _ E).
Qed.

Lemma wire_body (f x y w : Z) :
  Joystick.wire f x y w =
  ((Serial_print f ++ "," ++ Serial_print x ++ "," ++ Serial_print y ++ ","
      ++ Serial_print w) ++ String CR (String LF EmptyString))%string.
Proof.
  unfold Joystick.wire, Serial_println.
  rewrite !string_app_assoc. reflexivity.
Qed.

(** A line without the four-field shape is no control state. *)
Lemma parse_line_shape (line : string) (fs : list string) :
  fields line = Some fs -> List.length fs <> 4%nat -> parse_line line = None.
Proof.
  intros Hf Hlen. unfold parse_line. rewrite Hf.
  destruct fs as [|a [|b [|c [|d [|e fs]]]]]; try reflexivity.
  simpl in Hlen. congruence.
Qed.

(** A line with a field that is not an integer is no control state. *)
Lemma parse_line_field (line : string) (fs : list string) (s : string) :
  fields line = Some fs -> In s fs -> parse_int s = None ->
  parse_line line = None.
Proof.
  intros Hf Hin Hs. unfold parse_line. rewrite Hf.
  destruct fs as [|a [|b [|c [|d [|e fs]]]]]; try reflexivity.
  simpl in Hin.
  destruct Hin as [<-|[<-|[<-|[<-|[]]]]]; rewrite Hs;
    repeat match goal with
           | |- context [match parse_int ?t with _ => _ end] => destruct (parse_int t)
           end; reflexivity.
Qed.

Lemma malformed_rejected (line : string) :
  malformed line -> parse_line line = None.
Proof.
  intros H. destruct (fields line) as [fs|] eqn:Hf.
  - destruct (H fs Hf) as [Hlen|(s & Hin & Hs)].
    + exact (parse_line_shape line fs Hf Hlen).
    + exact (parse_line_field line fs s Hf Hin Hs).
  - unfold parse_line. rewrite Hf. reflexivity.
Qed.

(** What the parser makes of a line of the joystick sketch. *)
Lemma parse_line_wire (f x y w : Z) :
  parse_line (Joystick.wire f x y w) =
  Some {| frequency := f; axisX := x; axisY := y; waveform := w |}.
Proof.
  unfold parse_line, fields. rewrite wire_body, chomp_crlf. cbn [option_map].
  rewrite !field_comma_split.
  rewrite split_none by (apply Serial_print_no; reflexivity).
  rewrite !parse_int_print. reflexivity.
Qed.

End Parser.

(** * The frequency smoother and the phase accumulator *)

Section Engine.

Import Core.
Open Scope Q_scope.

(** The distance to the target shrinks by the factor 0.95 per sample. *)
Lemma smooth_n_closed (n : nat) (current target : Q) :
  target - smooth_n n current target == 0.95 ^ Z.of_nat n * (target - current).
Proof.
  revert current. induction n as [|n IH]; intros current.
  - simpl. ring.
  - cbn [smooth_n]. rewrite IH.
    rewrite Nat2Z.inj_succ, <- Z.add_1_r.
    rewrite Qpower_plus by discriminate.
    unfold smooth. change (0.95 ^ 1) with 0.95. ring.
Qed.

Lemma progress_closed (n : nat) (start target : Q) :
  ~ target - start == 0 ->
  progress n start target == 1 - 0.95 ^ Z.of_nat n.
Proof.
  intros Hne. unfold progress.
  setoid_replace (smooth_n n start target - start)
    with ((target - start) - (target - smooth_n n start target)) by ring.
  rewrite smooth_n_closed. field. exact Hne.
Qed.

(** Wrapping lands in the canonical domain, whatever was added. *)
Lemma wrap_range (period x : Q) :
  0 < period -> 0 <= wrap period x /\ wrap period x < period.
Proof.
  intros Hp. unfold wrap.
  assert (Hne : ~ period == 0) by (intros E; rewrite E in Hp; discriminate).
  pose proof (Qfloor_le (x / period)) as Hlo.
  pose proof (Qlt_floor (x / period)) as Hhi.
  rewrite inject_Z_plus in Hhi.
  apply (Qmult_le_compat_r _ _ period) in Hlo; [|apply Qlt_le_weak; exact Hp].
  apply (Qmult_lt_compat_r _ _ period Hp) in Hhi.
  assert (E : x / period * period == x) by (field; exact Hne).
  rewrite E in Hlo, Hhi.
  set (k := inject_Z (Qfloor (x / period))) in *.
  split.
  - setoid_replace (period * k) with (k * period) by ring.
    apply (Qplus_le_l _ _ (k * period)). ring_simplify. exact Hlo.
  - apply (Qplus_lt_l _ _ (k * period)).
    setoid_replace (x - period * k + k * period) with x by ring.
    setoid_replace (period + k * period) with ((k + inject_Z 1) * period) by (simpl; ring).
    exact Hhi.
Qed.

Lemma phase_fold_range (period : Q) (freqs : list Q) (p0 : Q) :
  0 < period -> 0 <= p0 /\ p0 < period ->
  0 <= fold_left (advance period) freqs p0 /\
  fold_left (advance period) freqs p0 < period.
Proof.
  intros Hp. revert p0. induction freqs as [|f freqs IH]; intros p0 H0.
  - exact H0.
  - simpl. apply IH. unfold advance. apply wrap_range. exact Hp.
Qed.

End Engine.

(** * Worked examples *)

Section Examples.

Example joy_session_events :
  Joystick.events (snd (Joystick.run Joystick.init Joystick.session)) =
  [ Joystick.Tx Periodic 100 512 300 0; Joystick.Delay 5;
    Joystick.Tx Immediate 151 512 300 1; Joystick.Delay 200;
    Joystick.Tx Periodic 151 512 300 1; Joystick.Delay 5;
    Joystick.Delay 5;
    Joystick.Tx Periodic 302 0 300 1; Joystick.Delay 5 ].
Proof. reflexivity. Qed.

Example pot_session_events :
  Pot.events (snd (Pot.run Pot.init Pot.session)) =
  [ Pot.Tx Periodic 100 512 0; Pot.Delay 5;
    Pot.Tx Immediate 151 512 1; Pot.Delay 200;
    Pot.Tx Periodic 151 512 1; Pot.Delay 5;
    Pot.Delay 5;
    Pot.Tx Periodic 302 0 1; Pot.Delay 5 ].
Proof. reflexivity. Qed.

Example joy_wire_sample :
  Joystick.wire 250 512 300 3 =
  ("250,512,300,3" ++ String CR (String LF EmptyString))%string.
Proof. reflexivity. Qed.

Example map_samples :
  map 0 0 1023 2 100 = 2 /\ map 511 0 1023 2 100 = 50 /\
  map 1022 0 1023 2 100 = 99 /\ map 1023 0 1023 2 100 = 100.
Proof. repeat split; reflexivity. Qed.

Example garbage_fields :
  Core.fields Core.garbage_line = Some ["garbage"%string] /\
  Core.parse_line Core.garbage_line = None.
Proof. split; reflexivity. Qed.

End Examples.

(** * The button across iterations *)

Section Buttons.

Lemma last_cons {A : Type} (l : list A) (a d : A) : last (a :: l) d = last l a.
Proof.
  revert a d. induction l as [|b l IH]; intros a d; [reflexivity|].
  change (last (a :: b :: l) d) with (last (b :: l) d).
  rewrite (IH b d), (IH b a). reflexivity.
Qed.

Lemma joy_run_button (ins : list Joystick.Inputs) (g : Joystick.Globals) :
  Joystick.lastJoyButtonState (fst (Joystick.run g ins)) =
  last (List.map Joystick.button ins) (Joystick.lastJoyButtonState g).
Proof.
  revert g. induction ins as [|i rest IH]; intros g; [reflexivity|].
  rewrite joy_run_cons. cbn [fst]. rewrite IH, joy_loop_button.
  cbn [List.map]. rewrite last_cons. reflexivity.
Qed.

Lemma pot_run_button (ins : list Pot.Inputs) (g : Pot.Globals) :
  Pot.lastButtonState (fst (Pot.run g ins)) =
  last (List.map Pot.button ins) (Pot.lastButtonState g).
Proof.
  revert g. induction ins as [|i rest IH]; intros g; [reflexivity|].
  rewrite pot_run_cons. cbn [fst]. rewrite IH, pot_loop_button.
  cbn [List.map]. rewrite last_cons. reflexivity.
Qed.

Lemma joy_falling_edge (g : Joystick.Globals) (i : Joystick.Inputs) :
  Joystick.falling_edge g i =
  negb (Joystick.button i) && Joystick.lastJoyButtonState g.
Proof.
  unfold Joystick.falling_edge, LOW, HIGH.
  destruct (Joystick.button i), (Joystick.lastJoyButtonState g); reflexivity.
Qed.

Lemma pot_falling_edge (g : Pot.Globals) (i : Pot.Inputs) :
  Pot.falling_edge g i = negb (Pot.button i) && Pot.lastButtonState g.
Proof.
  unfold Pot.falling_edge, LOW, HIGH.
  destruct (Pot.button i), (Pot.lastButtonState g); reflexivity.
Qed.

Lemma joy_no_immediate (g : Joystick.Globals) (i : Joystick.Inputs) :
  existsb Joystick.is_immediate (snd (Joystick.loop g i)) = Joystick.falling_edge g i.
Proof.
  rewrite joy_loop_events.
  destruct (Joystick.falling_edge g i); destruct (Joystick.due g i); reflexivity.
Qed.

Lemma pot_no_immediate (g : Pot.Globals) (i : Pot.Inputs) :
  existsb Pot.is_immediate (snd (Pot.loop g i)) = Pot.falling_edge g i.
Proof.
  rewrite pot_loop_events.
  destruct (Pot.falling_edge g i); destruct (Pot.due g i); reflexivity.
Qed.

End Buttons.

(** * The claims about the firmware *)

(** C1, as amended: every line the joystick sketch writes, on the immediate
    and on the periodic path alike, is an ASCII line of exactly four
    comma-separated fields ending in the line feed of [println]; every line
    the potentiometer sketch writes is such a line of exactly three
    fields. *)
Theorem C1_line_format
    (jg : Joystick.Globals) (jins : list Joystick.Inputs)
    (pg : Pot.Globals) (pins : list Pot.Inputs) (f x y w : Z) :
  Forall (fun e => writes_csv 4 (Joystick.line_of e))
         (Joystick.events (snd (Joystick.run jg jins))) /\
  Forall (fun e => writes_csv 3 (Pot.line_of e))
         (Pot.events (snd (Pot.run pg pins))) /\
  split "," (Joystick.wire f x y w) =
    [Serial_print f; Serial_print x; Serial_print y; Serial_println w] /\
  split "," (Pot.wire f x w) =
    [Serial_print f; Serial_print x; Serial_println w].
Proof.
  split; [|split; [|split]].
  - apply Forall_forall. intros e _.
    destruct e as [p f' x' y' w'|ms]; simpl; [apply joy_wire_csv|exact I].
  - apply Forall_forall. intros e _.
    destruct e as [p f' x' w'|ms]; simpl; [apply pot_wire_csv|exact I].
  - apply joy_wire_fields.
  - apply pot_wire_fields.
Qed.

(** C1 as stated fails on the potentiometer sketch: the line its first
    iteration writes has three fields, not four. *)
Lemma C1_pot_line_three_fields :
  exists e,
    In e (Pot.events (snd (Pot.run Pot.init Pot.session))) /\
    Pot.line_of e = Some ("100,512,0" ++ String CR (String LF EmptyString))%string /\
    ~ writes_csv 4 (Pot.line_of e).
Proof.
  exists (Pot.Tx Periodic 100 512 0). split; [|split].
  - vm_compute. left. reflexivity.
  - reflexivity.
  - intros (_ & _ & _ & H). vm_compute in H. discriminate.
Qed.

(** C2: with 10-bit ADC readings, the frequency starts at 100, every line
    of a run carries a frequency in [100, 2000], and an iteration adds the
    sweep step to it, putting 100 in its place when the sum exceeds 2000;
    in both sketches. *)
Theorem C2_frequency_in_band
    (jins : list Joystick.Inputs) (ji : Joystick.Inputs)
    (pins : list Pot.Inputs) (pi : Pot.Inputs) :
  Forall Joystick.adc_inputs (jins ++ [ji]) ->
  Forall Pot.adc_inputs (pins ++ [pi]) ->
  (Joystick.freq Joystick.init = 100 /\
   Forall (fun e => field_in 100 2000 (Joystick.tx_freq e))
          (Joystick.events (snd (Joystick.run Joystick.init (jins ++ [ji])))) /\
   let g := fst (Joystick.run Joystick.init jins) in
   Joystick.freq_ok g /\
   Joystick.freq (fst (Joystick.loop g ji)) =
     if Joystick.freq g + Joystick.sweepSpeed ji >? 2000 then 100
     else Joystick.freq g + Joystick.sweepSpeed ji) /\
  (Pot.freq Pot.init = 100 /\
   Forall (fun e => field_in 100 2000 (Pot.tx_freq e))
          (Pot.events (snd (Pot.run Pot.init (pins ++ [pi])))) /\
   let g := fst (Pot.run Pot.init pins) in
   Pot.freq_ok g /\
   Pot.freq (fst (Pot.loop g pi)) =
     if Pot.freq g + Pot.sweepSpeed pi >? 2000 then 100
     else Pot.freq g + Pot.sweepSpeed pi).
Proof.
  intros Hj Hp.
  assert (Hj0 : Joystick.freq_ok Joystick.init) by (unfold Joystick.freq_ok; simpl; lia).
  assert (Hp0 : Pot.freq_ok Pot.init) by (unfold Pot.freq_ok; simpl; lia).
  split.
  - split; [reflexivity|]. split.
    + apply Forall_forall. intros e He.
      destruct (Joystick.tx_freq e) as [f|] eqn:E; simpl; [|exact I].
      exact (proj2 (joy_run_freq _ _ Hj0 Hj) e f He E).
    + apply Forall_app in Hj. destruct Hj as [Hpre Hlast].
      inversion Hlast as [|? ? Hi _]; subst.
      destruct (joy_run_freq _ _ Hj0 Hpre) as [Hg _].
      split; [exact Hg|].
      apply joy_loop_freq_adc; [exact Hg|]. destruct Hi as (_ & _ & Hx & _). exact Hx.
  - split; [reflexivity|]. split.
    + apply Forall_forall. intros e He.
      destruct (Pot.tx_freq e) as [f|] eqn:E; simpl; [|exact I].
      exact (proj2 (pot_run_freq _ _ Hp0 Hp) e f He E).
    + apply Forall_app in Hp. destruct Hp as [Hpre Hlast].
      inversion Hlast as [|? ? Hi _]; subst.
      destruct (pot_run_freq _ _ Hp0 Hpre) as [Hg _].
      split; [exact Hg|].
      apply pot_loop_freq_adc; [exact Hg|]. destruct Hi as (_ & Hx). exact Hx.
Qed.

Lemma C2_frequency_in_band_witness :
  Forall Joystick.adc_inputs (Joystick.session ++ [Joystick.idle 1230]) /\
  Forall Pot.adc_inputs (Pot.session ++ [Pot.idle 1230]) /\
  Forall (fun e => field_in 100 2000 (Joystick.tx_freq e))
         (Joystick.events
            (snd (Joystick.run Joystick.init (Joystick.session ++ [Joystick.idle 1230])))) /\
  Forall (fun e => field_in 100 2000 (Pot.tx_freq e))
         (Pot.events (snd (Pot.run Pot.init (Pot.session ++ [Pot.idle 1230])))).
Proof.
  assert (Hj : Forall Joystick.adc_inputs (Joystick.session ++ [Joystick.idle 1230])).
  { repeat constructor; simpl; lia. }
  assert (Hp : Forall Pot.adc_inputs (Pot.session ++ [Pot.idle 1230])).
  { repeat constructor; simpl; lia. }
  split; [exact Hj|]. split; [exact Hp|].
  pose proof (C2_frequency_in_band Joystick.session (Joystick.idle 1230)
                Pot.session (Pot.idle 1230) Hj Hp) as H.
  split; [exact (proj1 (proj2 (proj1 H)))|exact (proj1 (proj2 (proj2 H)))].
Defined.

(** C3: the waveform selector starts at 0 and is in {0..7} after every
    run; every line of a run carries a waveform in {0..7}; a press (falling
    edge) moves the selector to its successor modulo 8 and nothing else
    moves it; in both sketches. *)
Theorem C3_waveform_in_range
    (jins : list Joystick.Inputs) (ji : Joystick.Inputs)
    (pins : list Pot.Inputs) (pi : Pot.Inputs) :
  (Joystick.waveformType Joystick.init = 0 /\
   Forall (fun e => field_in 0 7 (Joystick.tx_wave e))
          (Joystick.events (snd (Joystick.run Joystick.init jins))) /\
   let g := fst (Joystick.run Joystick.init jins) in
   0 <= Joystick.waveformType g <= 7 /\
   Joystick.waveformType (fst (Joystick.loop g ji)) =
     if Joystick.falling_edge g ji then (Joystick.waveformType g + 1) mod 8
     else Joystick.waveformType g) /\
  (Pot.waveformType Pot.init = 0 /\
   Forall (fun e => field_in 0 7 (Pot.tx_wave e))
          (Pot.events (snd (Pot.run Pot.init pins))) /\
   let g := fst (Pot.run Pot.init pins) in
   0 <= Pot.waveformType g <= 7 /\
   Pot.waveformType (fst (Pot.loop g pi)) =
     if Pot.falling_edge g pi then (Pot.waveformType g + 1) mod 8
     else Pot.waveformType g).
Proof.
  assert (Hj0 : Joystick.wave_ok Joystick.init) by (unfold Joystick.wave_ok; simpl; lia).
  assert (Hp0 : Pot.wave_ok Pot.init) by (unfold Pot.wave_ok; simpl; lia).
  destruct (joy_run_wave jins _ Hj0) as [Hjg Hje].
  destruct (pot_run_wave pins _ Hp0) as [Hpg Hpe].
  split.
  - split; [reflexivity|]. split.
    + apply Forall_forall. intros e He.
      destruct (Joystick.tx_wave e) as [w|] eqn:E; simpl; [|exact I].
      exact (Hje e w He E).
    + cbv zeta. split; [exact Hjg|].
      rewrite joy_loop_waveformType.
      destruct (Joystick.falling_edge _ ji); [|reflexivity].
      apply next_wave. exact Hjg.
  - split; [reflexivity|]. split.
    + apply Forall_forall. intros e He.
      destruct (Pot.tx_wave e) as [w|] eqn:E; simpl; [|exact I].
      exact (Hpe e w He E).
    + cbv zeta. split; [exact Hpg|].
      rewrite pot_loop_waveformType.
      destruct (Pot.falling_edge _ pi); [|reflexivity].
      apply next_wave. exact Hpg.
Qed.

(** C7: in a run whose uptimes never decrease, a periodic line is written
    exactly when the [millis()] difference to [lastSendTime] is at least
    [sendInterval] = 20; successive periodic lines are therefore at least
    20 ms apart (the first at least 20 ms after start), and at most 50 of
    them fall into any window of one second; in both sketches. *)
Theorem C7_periodic_rate
    (jins : list Joystick.Inputs) (pins : list Pot.Inputs) (t : Z) :
  monotone (0 :: List.map Joystick.uptime jins) ->
  monotone (0 :: List.map Pot.uptime pins) ->
  (Joystick.sendInterval = 20 /\
   (forall g i, existsb Joystick.is_periodic (snd (Joystick.loop g i)) =
                (to_ulong (millis (Joystick.uptime i) - Joystick.lastSendTime g) >=? 20)) /\
   let times := Joystick.periodic_times (snd (Joystick.run Joystick.init jins)) in
   spaced 20 (0 :: times) /\
   (List.length (in_window t 1000 times) <= 50)%nat) /\
  (Pot.sendInterval = 20 /\
   (forall g i, existsb Pot.is_periodic (snd (Pot.loop g i)) =
                (to_ulong (millis (Pot.uptime i) - Pot.lastSendTime g) >=? 20)) /\
   let times := Pot.periodic_times (snd (Pot.run Pot.init pins)) in
   spaced 20 (0 :: times) /\
   (List.length (in_window t 1000 times) <= 50)%nat).
Proof.
  intros Hj Hp.
  pose proof (joy_periodic_spaced jins Joystick.init 0 eq_refl Hj) as Sj.
  pose proof (pot_periodic_spaced pins Pot.init 0 eq_refl Hp) as Sp.
  split.
  - split; [reflexivity|]. split; [exact joy_loop_periodic|].
    cbv zeta. split; [exact Sj|].
    apply spaced_rate. exact (proj1 (spaced_head _ _ _ Sj)).
  - split; [reflexivity|]. split; [exact pot_loop_periodic|].
    cbv zeta. split; [exact Sp|].
    apply spaced_rate. exact (proj1 (spaced_head _ _ _ Sp)).
Qed.

Lemma C7_periodic_rate_witness :
  monotone (0 :: List.map Joystick.uptime Joystick.session) /\
  monotone (0 :: List.map Pot.uptime Pot.session) /\
  Joystick.periodic_times (snd (Joystick.run Joystick.init Joystick.session))
    = [1000; 1205; 1225] /\
  spaced 20 (0 :: Joystick.periodic_times
                    (snd (Joystick.run Joystick.init Joystick.session))) /\
  spaced 20 (0 :: Pot.periodic_times (snd (Pot.run Pot.init Pot.session))).
Proof.
  assert (Hj : monotone (0 :: List.map Joystick.uptime Joystick.session)).
  { unfold monotone. simpl. repeat constructor; lia. }
  assert (Hp : monotone (0 :: List.map Pot.uptime Pot.session)).
  { unfold monotone. simpl. repeat constructor; lia. }
  split; [exact Hj|]. split; [exact Hp|]. split; [reflexivity|].
  pose proof (C7_periodic_rate Joystick.session Pot.session 1000 Hj Hp) as H.
  split; [exact (proj1 (proj2 (proj2 (proj1 H))))|exact (proj1 (proj2 (proj2 (proj2 H))))].
Defined.

(** C9: on a 10-bit reading the sweep step [map(x, 0, 1023, 2, 100)] lies
    in [2, 100] and does not decrease when the reading grows; so from a
    frequency in [100, 2000] an iteration either raises the frequency by
    its step, between 2 and 100, or, when that would exceed 2000, puts it
    back to 100; in both sketches. *)
Theorem C9_sweep_step
    (x x' : Z) (jg : Joystick.Globals) (ji : Joystick.Inputs)
    (pg : Pot.Globals) (pi : Pot.Inputs) :
  0 <= x -> x <= x' -> x' <= 1023 ->
  Joystick.freq_ok jg -> Joystick.adc (Joystick.joyX ji) ->
  Pot.freq_ok pg -> Pot.adc (Pot.pot pi) ->
  (2 <= map x 0 1023 2 100 <= 100 /\
   map x 0 1023 2 100 <= map x' 0 1023 2 100 /\
   map 0 0 1023 2 100 = 2 /\ map 1023 0 1023 2 100 = 100) /\
  (Joystick.sweepSpeed ji = map (Joystick.joyX ji) 0 1023 2 100 /\
   2 <= Joystick.sweepSpeed ji <= 100 /\
   if Joystick.freq jg + Joystick.sweepSpeed ji >? 2000
   then Joystick.freq (fst (Joystick.loop jg ji)) = 100
   else Joystick.freq (fst (Joystick.loop jg ji)) = Joystick.freq jg + Joystick.sweepSpeed ji /\
        Joystick.freq jg < Joystick.freq (fst (Joystick.loop jg ji)) <= 2000) /\
  (Pot.sweepSpeed pi = map (Pot.pot pi) 0 1023 2 100 /\
   2 <= Pot.sweepSpeed pi <= 100 /\
   if Pot.freq pg + Pot.sweepSpeed pi >? 2000
   then Pot.freq (fst (Pot.loop pg pi)) = 100
   else Pot.freq (fst (Pot.loop pg pi)) = Pot.freq pg + Pot.sweepSpeed pi /\
        Pot.freq pg < Pot.freq (fst (Pot.loop pg pi)) <= 2000).
Proof.
  intros H0 H1 H2 Hjg Hjx Hpg Hpx.
  split; [|split].
  - split; [apply map_adc_range; lia|].
    split; [apply map_adc_mono; assumption|].
    split; reflexivity.
  - destruct (joy_loop_freq_adc jg ji Hjg Hjx) as [Hs E].
    split; [apply sweep_adc; exact Hjx|]. split; [exact Hs|].
    rewrite E.
    destruct (Z.gtb_spec (Joystick.freq jg + Joystick.sweepSpeed ji) 2000);
      [reflexivity|]. lia.
  - destruct (pot_loop_freq_adc pg pi Hpg Hpx) as [Hs E].
    split; [apply sweep_adc; exact Hpx|]. split; [exact Hs|].
    rewrite E.
    destruct (Z.gtb_spec (Pot.freq pg + Pot.sweepSpeed pi) 2000);
      [reflexivity|]. lia.
Qed.

Lemma C9_sweep_step_witness :
  (0 <= 512 /\ 512 <= 1023 /\ 1023 <= 1023) /\
  (Joystick.freq_ok Joystick.init /\ Joystick.adc (Joystick.joyX (Joystick.idle 1000))) /\
  (Pot.freq_ok Pot.init /\ Pot.adc (Pot.pot (Pot.idle 1000))) /\
  map 512 0 1023 2 100 <= map 1023 0 1023 2 100 /\
  Joystick.freq (fst (Joystick.loop Joystick.init (Joystick.idle 1000))) = 151 /\
  Pot.freq (fst (Pot.loop Pot.init (Pot.idle 1000))) = 151.
Proof.
  assert (Hjg : Joystick.freq_ok Joystick.init) by (unfold Joystick.freq_ok; simpl; lia).
  assert (Hjx : Joystick.adc (Joystick.joyX (Joystick.idle 1000)))
    by (unfold Joystick.adc; simpl; lia).
  assert (Hpg : Pot.freq_ok Pot.init) by (unfold Pot.freq_ok; simpl; lia).
  assert (Hpx : Pot.adc (Pot.pot (Pot.idle 1000))) by (unfold Pot.adc; simpl; lia).
  pose proof (C9_sweep_step 512 1023 Joystick.init (Joystick.idle 1000)
                Pot.init (Pot.idle 1000)
                ltac:(lia) ltac:(lia) ltac:(lia) Hjg Hjx Hpg Hpx) as H.
  split; [lia|]. split; [split; assumption|]. split; [split; assumption|].
  split; [exact (proj1 (proj2 (proj1 H)))|].
  split; reflexivity.
Defined.

(** C10: between two iterations of a run, a falling edge is a LOW read
    after a HIGH one; on it the iteration moves the selector to its
    successor modulo 8 and first of all writes one immediate line carrying
    the new selector, ahead of the debounce delay and of the periodic line
    of the same iteration; without it the selector is left alone and no
    immediate line is written; in both sketches. *)
Theorem C10_button_press
    (jins : list Joystick.Inputs) (ji : Joystick.Inputs)
    (pins : list Pot.Inputs) (pi : Pot.Inputs) :
  (let g := fst (Joystick.run Joystick.init jins) in
   let g' := fst (Joystick.loop g ji) in
   Joystick.falling_edge g ji =
     negb (Joystick.button ji) && last (List.map Joystick.button jins) HIGH /\
   if Joystick.falling_edge g ji then
     Joystick.waveformType g' = (Joystick.waveformType g + 1) mod 8 /\
     snd (Joystick.loop g ji) =
       Joystick.Tx Immediate (Joystick.freq g) (Joystick.pressX ji) (Joystick.pressY ji)
                   (Joystick.waveformType g')
       :: Joystick.Delay 200
       :: (if Joystick.due g ji
           then [Joystick.Tx Periodic (Joystick.freq g) (Joystick.joyX ji)
                             (Joystick.joyY ji) (Joystick.waveformType g')]
           else [])
       ++ [Joystick.Delay 5]
   else
     Joystick.waveformType g' = Joystick.waveformType g /\
     existsb Joystick.is_immediate (snd (Joystick.loop g ji)) = false) /\
  (let g := fst (Pot.run Pot.init pins) in
   let g' := fst (Pot.loop g pi) in
   Pot.falling_edge g pi =
     negb (Pot.button pi) && last (List.map Pot.button pins) HIGH /\
   if Pot.falling_edge g pi then
     Pot.waveformType g' = (Pot.waveformType g + 1) mod 8 /\
     snd (Pot.loop g pi) =
       Pot.Tx Immediate (Pot.freq g) (Pot.pressPot pi) (Pot.waveformType g')
       :: Pot.Delay 200
       :: (if Pot.due g pi
           then [Pot.Tx Periodic (Pot.freq g) (Pot.pot pi) (Pot.waveformType g')]
           else [])
       ++ [Pot.Delay 5]
   else
     Pot.waveformType g' = Pot.waveformType g /\
     existsb Pot.is_immediate (snd (Pot.loop g pi)) = false).
Proof.
  assert (Hj0 : Joystick.wave_ok Joystick.init) by (unfold Joystick.wave_ok; simpl; lia).
  assert (Hp0 : Pot.wave_ok Pot.init) by (unfold Pot.wave_ok; simpl; lia).
  destruct (joy_run_wave jins _ Hj0) as [Hjg _].
  destruct (pot_run_wave pins _ Hp0) as [Hpg _].
  split; cbv zeta.
  - split.
    + rewrite joy_falling_edge, joy_run_button. reflexivity.
    + pose proof (joy_loop_waveformType (fst (Joystick.run Joystick.init jins)) ji) as Hw.
      pose proof (joy_loop_events (fst (Joystick.run Joystick.init jins)) ji) as He.
      pose proof (joy_no_immediate (fst (Joystick.run Joystick.init jins)) ji) as Hn.
      destruct (Joystick.falling_edge _ ji).
      * split; [rewrite Hw; apply next_wave; exact Hjg|exact He].
      * split; [exact Hw|exact Hn].
  - split.
    + rewrite pot_falling_edge, pot_run_button. reflexivity.
    + pose proof (pot_loop_waveformType (fst (Pot.run Pot.init pins)) pi) as Hw.
      pose proof (pot_loop_events (fst (Pot.run Pot.init pins)) pi) as He.
      pose proof (pot_no_immediate (fst (Pot.run Pot.init pins)) pi) as Hn.
      destruct (Pot.falling_edge _ pi).
      * split; [rewrite Hw; apply next_wave; exact Hpg|exact He].
      * split; [exact Hw|exact Hn].
Qed.

(** * The claims about the host-side engine *)

(** C4: one smoothing step is [current*0.95 + target*0.05]; iterated, the
    remaining distance to a constant target shrinks by 0.95 per sample, so
    that 20 samples from 100 toward 2000 cover exactly [1 - 0.95^20] of the
    distance, which lies between 0.64 and 0.65, within two hundredths of
    the 63% of the specification; computed on binary64 floats the share
    lies between 0.64 and 0.65 as well. *)
Theorem C4_smoother_rise (n : nat) (current target : Q) :
  (Core.smooth current target == current * 0.95 + target * 0.05 /\
   target - Core.smooth_n n current target
     == 0.95 ^ Z.of_nat n * (target - current) /\
   Core.progress 20 100 2000 == 1 - 0.95 ^ 20 /\
   0.64 < Core.progress 20 100 2000 /\ Core.progress 20 100 2000 < 0.65 /\
   Qabs (Core.progress 20 100 2000 - 0.63) < 0.02)%Q /\
  (0.64 <? Core.progress_float 20 100 2000)%float = true /\
  (Core.progress_float 20 100 2000 <? 0.65)%float = true.
Proof.
  split; [|split; vm_compute; reflexivity].
  split; [reflexivity|]. split; [apply smooth_n_closed|].
  assert (E : (Core.progress 20 100 2000 == 1 - 0.95 ^ 20)%Q).
  { apply (progress_closed 20 100 2000). discriminate. }
  split; [exact E|].
  rewrite E. repeat split; reflexivity.
Qed.

(** C5: a malformed line (incomplete, not of four fields, or with a field
    that is not an integer) leaves the control state as it was, all four
    fields, whether handled alone or within a polling pass of such lines;
    the parser has no error result. *)
Theorem C5_malformed_line_ignored
    (st : Core.ControlState) (line : string) (lines : list string) :
  Core.malformed line -> Forall Core.malformed lines ->
  Core.parse_line line = None /\
  Core.apply_line st line = st /\
  Core.poll st lines = st.
Proof.
  intros Hline Hlines.
  split; [exact (malformed_rejected line Hline)|]. split.
  - unfold Core.apply_line. rewrite (malformed_rejected line Hline). reflexivity.
  - unfold Core.poll. induction Hlines as [|l ls Hl _ IH]; [reflexivity|].
    simpl. unfold Core.apply_line at 2. rewrite (malformed_rejected l Hl). exact IH.
Qed.

Lemma C5_malformed_line_ignored_witness :
  Core.malformed Core.garbage_line /\
  Forall Core.malformed [Core.garbage_line; Core.garbage_line] /\
  Core.apply_line
    {| Core.frequency := 440; Core.axisX := 512; Core.axisY := 300; Core.waveform := 2 |}
    Core.garbage_line
  = {| Core.frequency := 440; Core.axisX := 512; Core.axisY := 300; Core.waveform := 2 |}.
Proof.
  assert (G : Core.malformed Core.garbage_line).
  { intros fs Hfs. vm_compute in Hfs. injection Hfs as <-. left. simpl. lia. }
  assert (GG : Forall Core.malformed [Core.garbage_line; Core.garbage_line]).
  { constructor; [exact G|]. constructor; [exact G|]. constructor. }
  split; [exact G|]. split; [exact GG|].
  exact (proj1 (proj2 (C5_malformed_line_ignored _ Core.garbage_line _ G GG))).
Defined.

(** C6: the line of the specification, [250,512,300,3] and a newline, is
    parsed to frequency 250, axisX 512, axisY 300, waveform 3, whatever the
    state was before; more generally every line the joystick sketch writes
    is parsed to the four values it printed. *)
Theorem C6_sample_line_parsed (st : Core.ControlState) (f x y w : Z) :
  Core.apply_line st Core.sample_line =
    {| Core.frequency := 250; Core.axisX := 512; Core.axisY := 300; Core.waveform := 3 |} /\
  Core.poll st [Core.garbage_line; Core.sample_line; Core.garbage_line] =
    {| Core.frequency := 250; Core.axisX := 512; Core.axisY := 300; Core.waveform := 3 |} /\
  Core.apply_line st (Joystick.wire f x y w) =
    {| Core.frequency := f; Core.axisX := x; Core.axisY := y; Core.waveform := w |}.
Proof.
  split; [reflexivity|]. split; [reflexivity|].
  unfold Core.apply_line. rewrite parse_line_wire. reflexivity.
Qed.

(** C8: starting from phase 0, after any number of samples at frequencies
    in [100, 2000] the phase accumulator lies in its canonical domain
    [0, period), for the unit period and for any other positive one, since
    it is wrapped after every increment; one wrapped increment lands in the
    domain whatever the phase and the increment were. *)
Theorem C8_phase_in_domain (period : Q) (freqs : list Q) (phase f : Q) :
  (0 < period)%Q -> Forall Core.in_band freqs ->
  (0 <= Core.phase_after 1 freqs /\ Core.phase_after 1 freqs < 1 /\
   0 <= Core.phase_after period freqs /\ Core.phase_after period freqs < period /\
   0 <= Core.advance period phase f /\ Core.advance period phase f < period)%Q.
Proof.
  intros Hp _.
  destruct (phase_fold_range 1 freqs 0 eq_refl (conj (Qle_refl 0) eq_refl)) as [A B].
  destruct (phase_fold_range period freqs 0 Hp (conj (Qle_refl 0) Hp)) as [C D].
  destruct (wrap_range period (phase + period * (f / Core.sampleRate)) Hp) as [E F].
  repeat split; assumption.
Qed.

Lemma C8_phase_in_domain_witness :
  (0 < 1)%Q /\ Forall Core.in_band [100%Q; 440%Q; 2000%Q] /\
  (0 <= Core.phase_after 1 [100; 440; 2000] /\
   Core.phase_after 1 [100; 440; 2000] < 1)%Q.
Proof.
  assert (B : Forall Core.in_band [100%Q; 440%Q; 2000%Q]).
  { repeat constructor; discriminate. }
  split; [reflexivity|]. split; [exact B|].
  pose proof (C8_phase_in_domain 1 [100%Q; 440%Q; 2000%Q] 0%Q 440%Q eq_refl B) as H.
  split; [exact (proj1 H)|exact (proj1 (proj2 H))].
Defined.

(** * Further properties of the sketches *)

Section Sweep.

(** At step [s] the sweep holds [100 + k*s] for [k] below the period, and
    the next value exceeds 2000 exactly at the last [k]. *)
Lemma sweep_period_bounds (s k : Z) :
  2 <= s -> 0 <= k < sweep_period s ->
  100 <= 100 + k * s <= 2000 /\
  ((100 + k * s + s >? 2000) = (k + 1 =? sweep_period s)).
Proof.
  unfold sweep_period. intros Hs Hk.
  pose proof (Z.mul_div_le 1900 s ltac:(lia)) as Hlo.
  pose proof (Z.mul_succ_div_gt 1900 s ltac:(lia)) as Hhi.
  assert (Hq : 0 <= 1900 / s) by (apply Z.div_pos; lia).
  set (q := 1900 / s) in *.
  split; [nia|].
  destruct (Z.eqb_spec (k + 1) (q + 1)) as [E|E].
  - apply Z.gtb_lt. assert (k = q) by lia. subst k. nia.
  - destruct (Z.gtb_spec (100 + k * s + s) 2000) as [G|G]; [|reflexivity].
    exfalso. assert (k + 1 <= q) by lia. nia.
Qed.

End Sweep.

Section JoystickMore.

Import Joystick.

(** The selector after a run, from any state with the selector in range. *)
Lemma joy_run_edges (ins : list Inputs) (g : Globals) :
  wave_ok g ->
  waveformType (fst (run g ins)) =
  (waveformType g
   + Z.of_nat (falling_edges (lastJoyButtonState g) (List.map button ins))) mod 8.
Proof.
  revert g. induction ins as [|i rest IH]; intros g Hg.
  - simpl. rewrite Z.add_0_r. symmetry. apply Z.mod_small.
    unfold wave_ok in Hg. lia.
  - rewrite joy_run_cons. cbn [fst List.map falling_edges].
    rewrite (IH _ (joy_wave_ok_loop g i Hg)).
    rewrite joy_loop_button, joy_loop_waveformType, joy_falling_edge.
    destruct (negb (button i) && lastJoyButtonState g).
    + rewrite next_wave by exact Hg.
      rewrite Z.add_mod_idemp_l by lia.
      f_equal. lia.
    + f_equal.
Qed.

(** The frequency after a run in which every X reading is [x], from a
    state [k] steps into a sweep. *)
Lemma joy_run_sweep (x : Z) (ins : list Inputs) (g : Globals) (k : Z) :
  adc x -> Forall (fun i => joyX i = x) ins ->
  0 <= k < sweep_period (map x 0 1023 2 100) ->
  freq g = 100 + k * map x 0 1023 2 100 ->
  freq (fst (run g ins)) =
  100 + ((k + Z.of_nat (List.length ins)) mod sweep_period (map x 0 1023 2 100))
        * map x 0 1023 2 100.
Proof.
  intros Hx. pose proof (map_adc_range x Hx) as Hs.
  set (s := map x 0 1023 2 100) in *.
  assert (Hp : 0 < sweep_period s).
  { unfold sweep_period. pose proof (Z.div_pos 1900 s). lia. }
  revert g k. induction ins as [|i rest IH]; intros g k Hall Hk Hg.
  - simpl. rewrite Z.add_0_r, Z.mod_small by exact Hk. exact Hg.
  - pose proof (Forall_inv Hall) as Hi. cbv beta in Hi.
    pose proof (Forall_inv_tail Hall) as Hrest.
    rewrite joy_run_cons. cbn [fst].
    destruct (sweep_period_bounds s k ltac:(lia) Hk) as [Hband Hwrap].
    assert (Hok : freq_ok g) by (unfold freq_ok; lia).
    assert (Hxi : adc (joyX i)) by (rewrite Hi; exact Hx).
    destruct (joy_loop_freq_adc g i Hok Hxi) as [_ Hnext].
    assert (Es : sweepSpeed i = s).
    { unfold sweepSpeed. rewrite Hi. apply sweep_adc. exact Hx. }
    rewrite Es, Hg, Hwrap in Hnext.
    change (List.length (i :: rest)) with (S (List.length rest)).
    rewrite Nat2Z.inj_succ.
    revert Hnext.
    destruct (Z.eqb_spec (k + 1) (sweep_period s)) as [E|E]; intros Hnext.
    + rewrite (IH (fst (loop g i)) 0 Hrest ltac:(lia) ltac:(lia)).
      f_equal. f_equal.
      replace (k + Z.succ (Z.of_nat (List.length rest)))
        with (Z.of_nat (List.length rest) + 1 * sweep_period s) by lia.
      rewrite Z.mod_add by lia. reflexivity.
    + rewrite (IH (fst (loop g i)) (k + 1) Hrest ltac:(lia) ltac:(lia)).
      f_equal. f_equal. f_equal. lia.
Qed.

(** The frequency after a run depends on the frequency before and on the
    X readings only. *)
Lemma joy_run_freq_only (ins ins' : list Inputs) (g g' : Globals) :
  freq g = freq g' -> List.map joyX ins = List.map joyX ins' ->
  freq (fst (run g ins)) = freq (fst (run g' ins')).
Proof.
  revert ins' g g'. induction ins as [|i rest IH]; intros ins' g g' Hg Hx;
    destruct ins' as [|i' rest']; try discriminate.
  - exact Hg.
  - injection Hx as Hi Hrest. rewrite !joy_run_cons. cbn [fst].
    apply IH; [|exact Hrest].
    rewrite !joy_loop_freq. unfold sweepSpeed. rewrite Hg, Hi. reflexivity.
Qed.

End JoystickMore.

Section Rollover.

(** On true uptimes less than 2^32 ms apart, the test of the periodic
    branch is the test of the true difference, wherever the two readings
    lie relative to the rollover of [millis()]. *)
Lemma due_true_difference (t0 t : Z) :
  0 <= t - t0 < 4294967296 ->
  (to_ulong (millis t - millis t0) >=? to_ulong 20) = (20 <=? t - t0).
Proof.
  intros H. unfold millis. rewrite ulong_diff.
  unfold to_ulong at 1. rewrite Z.mod_small by exact H.
  change (to_ulong 20) with 20. apply Z.geb_leb.
Qed.

Lemma millis_small (t : Z) : 0 <= t < 4294967296 -> millis t = t.
Proof.
  intros H. unfold millis, to_ulong. apply Z.mod_small. exact H.
Qed.

End Rollover.

Section JoystickClock.

Import Joystick.

Lemma joy_due_true_difference (g : Globals) (i : Inputs) (t0 : Z) :
  lastSendTime g = millis t0 -> 0 <= uptime i - t0 < 4294967296 ->
  due g i = (20 <=? uptime i - t0).
Proof.
  intros Hlast H. unfold due, sendInterval. rewrite Hlast.
  apply due_true_difference. exact H.
Qed.

(** Before the rollover, [lastSendTime] is never ahead of the latest
    uptime read. *)
Lemma joy_last_send_le (ins : list Inputs) (g : Globals) (tp : Z) :
  0 <= lastSendTime g <= tp ->
  monotone (tp :: List.map uptime ins) ->
  before_rollover (List.map uptime ins) ->
  0 <= lastSendTime (fst (run g ins)) <= last (List.map uptime ins) tp.
Proof.
  revert g tp. induction ins as [|i rest IH]; intros g tp Hg Hmono Hroll.
  - exact Hg.
  - cbn [List.map] in *.
    assert (Hle : tp <= uptime i).
    { unfold monotone in Hmono. inversion Hmono as [|? ? _ Hall]; subst.
      inversion Hall; subst. assumption. }
    assert (Hrest : monotone (uptime i :: List.map uptime rest)).
    { unfold monotone in *. inversion Hmono; subst. assumption. }
    pose proof (Forall_inv Hroll) as Hu. cbv beta in Hu.
    pose proof (Forall_inv_tail Hroll) as Hroll'.
    rewrite joy_run_cons. cbn [fst]. rewrite last_cons.
    apply IH; [|exact Hrest|exact Hroll'].
    rewrite joy_loop_lastSendTime.
    destruct (due g i); [|lia].
    rewrite millis_small by lia. lia.
Qed.

(** The fields of every line of a run lie in their ranges. *)
Lemma joy_run_fields (ins : list Inputs) (g : Globals) :
  freq_ok g -> wave_ok g -> Forall adc_inputs ins ->
  Forall (fun e => match e with
                   | Tx _ f x y w =>
                       100 <= f <= 2000 /\ adc x /\ adc y /\ 0 <= w <= 7
                   | Delay _ => True
                   end)
         (events (snd (run g ins))).
Proof.
  revert g. induction ins as [|i rest IH]; intros g Hf Hw Hadc.
  - constructor.
  - pose proof (Forall_inv Hadc) as (Hpx & Hpy & Hx & Hy).
    pose proof (Forall_inv_tail Hadc) as Hrest.
    rewrite joy_run_cons. unfold events. cbn [flat_map snd fst].
    apply Forall_app. split.
    + pose proof (joy_wave_ok_loop g i Hw) as Hw1.
      rewrite joy_loop_events.
      destruct (falling_edge g i); destruct (due g i); cbn [app];
        repeat constructor; solve [apply Hf | apply Hw1 | apply Hpx | apply Hpy
                                  | apply Hx | apply Hy].
    + apply IH; [apply joy_freq_ok_loop|apply joy_wave_ok_loop|]; assumption.
Qed.

End JoystickClock.

Section Decimal.

Lemma string_length_app (a b : string) :
  String.length (a ++ b) = (String.length a + String.length b)%nat.
Proof.
  induction a as [|c a IH]; simpl; [reflexivity|]. rewrite IH. reflexivity.
Qed.

Lemma string_app_inv_tail (a b t : string) :
  (a ++ t)%string = (b ++ t)%string -> a = b.
Proof.
  revert b. induction a as [|c a IH]; intros b H.
  - destruct b as [|d b]; [reflexivity|].
    apply (f_equal String.length) in H.
    simpl in H. rewrite string_length_app in H. lia.
  - destruct b as [|d b].
    + apply (f_equal String.length) in H.
      simpl in H. rewrite string_length_app in H. lia.
    + simpl in H. injection H as Hc Ht. rewrite Hc, (IH b Ht). reflexivity.
Qed.

Lemma Serial_print_read (n : Z) :
  NilZero.int_of_string (Serial_print n) = Some (Z.to_int n).
Proof.
  unfold Serial_print. apply NilZero.isi.
  - destruct n; simpl; try discriminate.
    intros E. injection E as E. exact (Unsigned.to_uint_nonnil _ E).
  - destruct n; simpl; try discriminate.
    intros E. injection E as E. exact (Unsigned.to_uint_nonnil _ E).
Qed.

(** Different integers are printed differently. *)
Lemma Serial_print_inj (a b : Z) : Serial_print a = Serial_print b -> a = b.
Proof.
  intros H. apply (f_equal NilZero.int_of_string) in H.
  rewrite !Serial_print_read in H. injection H as H.
  rewrite <- (DecimalZ.of_to a), <- (DecimalZ.of_to b), H. reflexivity.
Qed.

Lemma Serial_println_inj (a b : Z) : Serial_println a = Serial_println b -> a = b.
Proof.
  unfold Serial_println. intros H.
  apply Serial_print_inj. exact (string_app_inv_tail _ _ _ H).
Qed.

(** The number of characters [Serial.print] writes for a value of up to
    four digits. *)
Lemma Serial_print_length (n : Z) :
  0 <= n <= 9999 ->
  String.length (Serial_print n) =
  if n <? 10 then 1%nat else if n <? 100 then 2%nat
  else if n <? 1000 then 3%nat else 4%nat.
Proof.
  intros H.
  assert (All : forallb
                  (fun k => Nat.eqb (String.length (Serial_print (Z.of_nat k)))
                              (if Z.of_nat k <? 10 then 1%nat
                               else if Z.of_nat k <? 100 then 2%nat
                               else if Z.of_nat k <? 1000 then 3%nat else 4%nat))
                  (seq 0 (Z.to_nat 10000)) = true) by (vm_compute; reflexivity).
  rewrite forallb_forall in All.
  specialize (All (Z.to_nat n)).
  rewrite Z2Nat.id in All by lia.
  apply Nat.eqb_eq. apply All. apply in_seq. lia.
Qed.

Lemma Serial_println_length (n : Z) :
  String.length (Serial_println n) = (String.length (Serial_print n) + 2)%nat.
Proof.
  unfold Serial_println. rewrite string_length_app. reflexivity.
Qed.

Lemma field_comma_length (n : Z) (rest : string) :
  String.length (Serial_print n ++ "," ++ rest) =
  (String.length (Serial_print n) + 1 + String.length rest)%nat.
Proof.
  rewrite string_length_app. simpl. lia.
Qed.

End Decimal.

Section Simulation.

(** One iteration of the potentiometer sketch on the projected state and
    readings is the projection of the iteration of the joystick sketch. *)
Lemma pot_loop_of_joy (g : Joystick.Globals) (i : Joystick.Inputs) :
  Pot.loop (pot_globals g) (pot_inputs i) =
  (pot_globals (fst (Joystick.loop g i)),
   List.map pot_event (snd (Joystick.loop g i))).
Proof.
  unfold Pot.loop, Joystick.loop, Pot.falling_edge, Joystick.falling_edge,
    pot_globals, pot_inputs.
  cbn [Pot.button Pot.pressPot Pot.pot Pot.uptime Pot.freq Pot.waveformType
       Pot.lastButtonState Pot.lastSendTime].
  change Pot.sendInterval with Joystick.sendInterval.
  destruct (Bool.eqb (Joystick.button i) LOW
            && Bool.eqb (Joystick.lastJoyButtonState g) HIGH);
    destruct (to_ulong (millis (Joystick.uptime i) - Joystick.lastSendTime g)
              >=? to_ulong Joystick.sendInterval);
    reflexivity.
Qed.

Lemma pot_run_of_joy (ins : list Joystick.Inputs) (g : Joystick.Globals) :
  Pot.run (pot_globals g) (List.map pot_inputs ins) =
  (pot_globals (fst (Joystick.run g ins)), pot_trace (snd (Joystick.run g ins))).
Proof.
  revert g. induction ins as [|i rest IH]; intros g; [reflexivity|].
  cbn [List.map]. rewrite pot_run_cons, joy_run_cons, pot_loop_of_joy.
  cbn [fst snd]. rewrite IH. reflexivity.
Qed.

Lemma pot_inputs_joy (y : Z) (pins : list Pot.Inputs) :
  List.map pot_inputs (List.map (joy_inputs y) pins) = pins.
Proof.
  induction pins as [|[b pp p u] rest IH]; [reflexivity|].
  cbn [List.map]. rewrite IH. reflexivity.
Qed.

End Simulation.


Section PotMore.

Import Pot.

(** The selector after a run, from any state with the selector in range. *)
Lemma pot_run_edges (ins : list Inputs) (g : Globals) :
  wave_ok g ->
  waveformType (fst (run g ins)) =
  (waveformType g
   + Z.of_nat (falling_edges (lastButtonState g) (List.map button ins))) mod 8.
Proof.
  revert g. induction ins as [|i rest IH]; intros g Hg.
  - simpl. rewrite Z.add_0_r. symmetry. apply Z.mod_small.
    unfold wave_ok in Hg. lia.
  - rewrite pot_run_cons. cbn [fst List.map falling_edges].
    rewrite (IH _ (pot_wave_ok_loop g i Hg)).
    rewrite pot_loop_button, pot_loop_waveformType, pot_falling_edge.
    destruct (negb (button i) && lastButtonState g).
    + rewrite next_wave by exact Hg.
      rewrite Z.add_mod_idemp_l by lia.
      f_equal. lia.
    + f_equal.
Qed.

(** The frequency after a run in which every potentiometer reading is [x], from a
    state [k] steps into a sweep. *)
Lemma pot_run_sweep (x : Z) (ins : list Inputs) (g : Globals) (k : Z) :
  adc x -> Forall (fun i => pot i = x) ins ->
  0 <= k < sweep_period (map x 0 1023 2 100) ->
  freq g = 100 + k * map x 0 1023 2 100 ->
  freq (fst (run g ins)) =
  100 + ((k + Z.of_nat (List.length ins)) mod sweep_period (map x 0 1023 2 100))
        * map x 0 1023 2 100.
Proof.
  intros Hx. pose proof (map_adc_range x Hx) as Hs.
  set (s := map x 0 1023 2 100) in *.
  assert (Hp : 0 < sweep_period s).
  { unfold sweep_period. pose proof (Z.div_pos 1900 s). lia. }
  revert g k. induction ins as [|i rest IH]; intros g k Hall Hk Hg.
  - simpl. rewrite Z.add_0_r, Z.mod_small by exact Hk. exact Hg.
  - pose proof (Forall_inv Hall) as Hi. cbv beta in Hi.
    pose proof (Forall_inv_tail Hall) as Hrest.
    rewrite pot_run_cons. cbn [fst].
    destruct (sweep_period_bounds s k ltac:(lia) Hk) as [Hband Hwrap].
    assert (Hok : freq_ok g) by (unfold freq_ok; lia).
    assert (Hxi : adc (pot i)) by (rewrite Hi; exact Hx).
    destruct (pot_loop_freq_adc g i Hok Hxi) as [_ Hnext].
    assert (Es : sweepSpeed i = s).
    { unfold sweepSpeed. rewrite Hi. apply sweep_adc. exact Hx. }
    rewrite Es, Hg, Hwrap in Hnext.
    change (List.length (i :: rest)) with (S (List.length rest)).
    rewrite Nat2Z.inj_succ.
    revert Hnext.
    destruct (Z.eqb_spec (k + 1) (sweep_period s)) as [E|E]; intros Hnext.
    + rewrite (IH (fst (loop g i)) 0 Hrest ltac:(lia) ltac:(lia)).
      f_equal. f_equal.
      replace (k + Z.succ (Z.of_nat (List.length rest)))
        with (Z.of_nat (List.length rest) + 1 * sweep_period s) by lia.
      rewrite Z.mod_add by lia. reflexivity.
    + rewrite (IH (fst (loop g i)) (k + 1) Hrest ltac:(lia) ltac:(lia)).
      f_equal. f_equal. f_equal. lia.
Qed.

(** The frequency after a run depends on the frequency before and on the
    X readings only. *)
Lemma pot_run_freq_only (ins ins' : list Inputs) (g g' : Globals) :
  freq g = freq g' -> List.map pot ins = List.map pot ins' ->
  freq (fst (run g ins)) = freq (fst (run g' ins')).
Proof.
  revert ins' g g'. induction ins as [|i rest IH]; intros ins' g g' Hg Hx;
    destruct ins' as [|i' rest']; try discriminate.
  - exact Hg.
  - injection Hx as Hi Hrest. rewrite !pot_run_cons. cbn [fst].
    apply IH; [|exact Hrest].
    rewrite !pot_loop_freq. unfold sweepSpeed. rewrite Hg, Hi. reflexivity.
Qed.

End PotMore.

Section PotClock.

Import Pot.

Lemma pot_due_true_difference (g : Globals) (i : Inputs) (t0 : Z) :
  lastSendTime g = millis t0 -> 0 <= uptime i - t0 < 4294967296 ->
  due g i = (20 <=? uptime i - t0).
Proof.
  intros Hlast H. unfold due, sendInterval. rewrite Hlast.
  apply due_true_difference. exact H.
Qed.

(** Before the rollover, [lastSendTime] is never ahead of the latest
    uptime read. *)
Lemma pot_last_send_le (ins : list Inputs) (g : Globals) (tp : Z) :
  0 <= lastSendTime g <= tp ->
  monotone (tp :: List.map uptime ins) ->
  before_rollover (List.map uptime ins) ->
  0 <= lastSendTime (fst (run g ins)) <= last (List.map uptime ins) tp.
Proof.
  revert g tp. induction ins as [|i rest IH]; intros g tp Hg Hmono Hroll.
  - exact Hg.
  - cbn [List.map] in *.
    assert (Hle : tp <= uptime i).
    { unfold monotone in Hmono. inversion Hmono as [|? ? _ Hall]; subst.
      inversion Hall; subst. assumption. }
    assert (Hrest : monotone (uptime i :: List.map uptime rest)).
    { unfold monotone in *. inversion Hmono; subst. assumption. }
    pose proof (Forall_inv Hroll) as Hu. cbv beta in Hu.
    pose proof (Forall_inv_tail Hroll) as Hroll'.
    rewrite pot_run_cons. cbn [fst]. rewrite last_cons.
    apply IH; [|exact Hrest|exact Hroll'].
    rewrite pot_loop_lastSendTime.
    destruct (due g i); [|lia].
    rewrite millis_small by lia. lia.
Qed.

(** The fields of every line of a run lie in their ranges. *)
Lemma pot_run_fields (ins : list Inputs) (g : Globals) :
  freq_ok g -> wave_ok g -> Forall adc_inputs ins ->
  Forall (fun e => match e with
                   | Tx _ f x w =>
                       100 <= f <= 2000 /\ adc x /\ 0 <= w <= 7
                   | Delay _ => True
                   end)
         (events (snd (run g ins))).
Proof.
  revert g. induction ins as [|i rest IH]; intros g Hf Hw Hadc.
  - constructor.
  - pose proof (Forall_inv Hadc) as (Hpx & Hx).
    pose proof (Forall_inv_tail Hadc) as Hrest.
    rewrite pot_run_cons. unfold events. cbn [flat_map snd fst].
    apply Forall_app. split.
    + pose proof (pot_wave_ok_loop g i Hw) as Hw1.
      rewrite pot_loop_events.
      destruct (falling_edge g i); destruct (due g i); cbn [app];
        repeat constructor; solve [apply Hf | apply Hw1 | apply Hpx | apply Hx].
    + apply IH; [apply pot_freq_ok_loop|apply pot_wave_ok_loop|]; assumption.
Qed.

End PotClock.

(** * Further properties, stated for both sketches *)

Lemma falling_edges_held (n : nat) : falling_edges LOW (repeat LOW n) = 0%nat.
Proof.
  induction n as [|n IH]; [reflexivity|]. simpl. exact IH.
Qed.

(** X1: after any run the waveform selector is the number of falling
    edges among the button reads (the first compared with the initial
    HIGH), modulo 8; a button held LOW for any number of iterations is one
    falling edge, so holding it advances the selector once. *)
Theorem X1_selector_counts_presses
    (jins : list Joystick.Inputs) (pins : list Pot.Inputs) (n : nat) :
  Joystick.waveformType (fst (Joystick.run Joystick.init jins)) =
    Z.of_nat (falling_edges HIGH (List.map Joystick.button jins)) mod 8 /\
  Pot.waveformType (fst (Pot.run Pot.init pins)) =
    Z.of_nat (falling_edges HIGH (List.map Pot.button pins)) mod 8 /\
  falling_edges HIGH (repeat LOW (S n)) = 1%nat.
Proof.
  split; [|split].
  - apply (joy_run_edges jins Joystick.init). unfold Joystick.wave_ok. simpl. lia.
  - apply (pot_run_edges pins Pot.init). unfold Pot.wave_ok. simpl. lia.
  - simpl. rewrite falling_edges_held. reflexivity.
Qed.

(** X2: while the ADC reading stays at [x], with sweep step
    [s = map(x, 0, 1023, 2, 100)], the frequency after [n] iterations from
    the start is [100 + (n mod (1900/s + 1)) * s]: the sweep repeats every
    [1900/s + 1] iterations, which is between 20 and 951. *)
Theorem X2_sweep_closed_form
    (x : Z) (jins : list Joystick.Inputs) (pins : list Pot.Inputs) :
  0 <= x <= 1023 ->
  Forall (fun i => Joystick.joyX i = x) jins ->
  Forall (fun i => Pot.pot i = x) pins ->
  Joystick.freq (fst (Joystick.run Joystick.init jins)) =
    100 + (Z.of_nat (List.length jins) mod sweep_period (map x 0 1023 2 100))
          * map x 0 1023 2 100 /\
  Pot.freq (fst (Pot.run Pot.init pins)) =
    100 + (Z.of_nat (List.length pins) mod sweep_period (map x 0 1023 2 100))
          * map x 0 1023 2 100 /\
  20 <= sweep_period (map x 0 1023 2 100) <= 951.
Proof.
  intros Hx Hj Hp.
  pose proof (map_adc_range x Hx) as Hs.
  assert (Hq : 19 <= 1900 / map x 0 1023 2 100 <= 950).
  { split.
    - apply Z.div_le_lower_bound; lia.
    - apply Z.div_le_upper_bound; lia. }
  assert (Hk : 0 <= 0 < sweep_period (map x 0 1023 2 100)).
  { unfold sweep_period. lia. }
  split; [|split].
  - exact (joy_run_sweep x jins Joystick.init 0 Hx Hj Hk eq_refl).
  - exact (pot_run_sweep x pins Pot.init 0 Hx Hp Hk eq_refl).
  - unfold sweep_period. lia.
Qed.

Lemma X2_sweep_closed_form_witness :
  0 <= 512 <= 1023 /\
  Forall (fun i => Joystick.joyX i = 512) (repeat (Joystick.idle 1000) 40) /\
  Forall (fun i => Pot.pot i = 512) (repeat (Pot.idle 1000) 40) /\
  sweep_period (map 512 0 1023 2 100) = 38 /\
  Joystick.freq (fst (Joystick.run Joystick.init (repeat (Joystick.idle 1000) 40))) = 202 /\
  Pot.freq (fst (Pot.run Pot.init (repeat (Pot.idle 1000) 40))) = 202.
Proof.
  assert (Hj : Forall (fun i => Joystick.joyX i = 512) (repeat (Joystick.idle 1000) 40)).
  { apply Forall_forall. intros i Hi. apply repeat_spec in Hi. subst i. reflexivity. }
  assert (Hp : Forall (fun i => Pot.pot i = 512) (repeat (Pot.idle 1000) 40)).
  { apply Forall_forall. intros i Hi. apply repeat_spec in Hi. subst i. reflexivity. }
  pose proof (X2_sweep_closed_form 512 _ _ ltac:(lia) Hj Hp) as H.
  split; [lia|]. split; [exact Hj|]. split; [exact Hp|]. split; [reflexivity|].
  split; [exact (proj1 H)|exact (proj1 (proj2 H))].
Defined.

(** X3: the frequency after a run depends on the frequency before it and
    on the sweep-axis readings alone: button reads, readings taken inside
    the button branch, Y readings and uptimes do not affect it. *)
Theorem X3_sweep_ignores_button_and_clock
    (jg jg' : Joystick.Globals) (jins jins' : list Joystick.Inputs)
    (pg pg' : Pot.Globals) (pins pins' : list Pot.Inputs) :
  Joystick.freq jg = Joystick.freq jg' ->
  List.map Joystick.joyX jins = List.map Joystick.joyX jins' ->
  Pot.freq pg = Pot.freq pg' ->
  List.map Pot.pot pins = List.map Pot.pot pins' ->
  Joystick.freq (fst (Joystick.run jg jins)) = Joystick.freq (fst (Joystick.run jg' jins')) /\
  Pot.freq (fst (Pot.run pg pins)) = Pot.freq (fst (Pot.run pg' pins')).
Proof.
  intros Hjg Hj Hpg Hp. split.
  - exact (joy_run_freq_only jins jins' jg jg' Hjg Hj).
  - exact (pot_run_freq_only pins pins' pg pg' Hpg Hp).
Qed.

Lemma X3_sweep_ignores_button_and_clock_witness :
  List.map Joystick.joyX Joystick.session = [512; 512; 1023; 0] /\
  Joystick.freq (fst (Joystick.run Joystick.init Joystick.session)) =
    Joystick.freq
      (fst (Joystick.run
              {| Joystick.freq := 100; Joystick.waveformType := 5;
                 Joystick.lastJoyButtonState := LOW; Joystick.lastSendTime := 999 |}
              [ {| Joystick.button := LOW; Joystick.pressX := 1; Joystick.pressY := 2;
                   Joystick.joyX := 512; Joystick.joyY := 0; Joystick.uptime := 5 |};
                {| Joystick.button := HIGH; Joystick.pressX := 3; Joystick.pressY := 4;
                   Joystick.joyX := 512; Joystick.joyY := 1023; Joystick.uptime := 6 |};
                {| Joystick.button := LOW; Joystick.pressX := 5; Joystick.pressY := 6;
                   Joystick.joyX := 1023; Joystick.joyY := 9; Joystick.uptime := 900 |};
                {| Joystick.button := LOW; Joystick.pressX := 7; Joystick.pressY := 8;
                   Joystick.joyX := 0; Joystick.joyY := 9; Joystick.uptime := 901 |} ])).
Proof.
  split; [reflexivity|].
  exact (proj1 (X3_sweep_ignores_button_and_clock
                  Joystick.init _ Joystick.session _
                  Pot.init Pot.init Pot.session Pot.session
                  eq_refl eq_refl eq_refl eq_refl)).
Defined.

(** X4: a line determines the values printed into it: two lines of a
    sketch are equal exactly when all their fields are. *)
Theorem X4_line_determines_values (f x y w f' x' y' w' : Z) :
  (Joystick.wire f x y w = Joystick.wire f' x' y' w' <->
   (f, x, y, w) = (f', x', y', w')) /\
  (Pot.wire f x w = Pot.wire f' x' w' <-> (f, x, w) = (f', x', w')).
Proof.
  split; split.
  - intros H. apply (f_equal (split ",")) in H.
    rewrite !joy_wire_fields in H. injection H as Hf Hx Hy Hw.
    apply Serial_print_inj in Hf, Hx, Hy. apply Serial_println_inj in Hw.
    congruence.
  - intros H. injection H as -> -> -> ->. reflexivity.
  - intros H. apply (f_equal (split ",")) in H.
    rewrite !pot_wire_fields in H. injection H as Hf Hx Hw.
    apply Serial_print_inj in Hf, Hx. apply Serial_println_inj in Hw.
    congruence.
  - intros H. injection H as -> -> ->. reflexivity.
Qed.

(** X5: with 10-bit ADC readings every line of the joystick sketch is
    between 11 and 18 bytes long, line end included, and every line of the
    potentiometer sketch between 9 and 13. *)
Theorem X5_line_length
    (jins : list Joystick.Inputs) (pins : list Pot.Inputs) :
  Forall Joystick.adc_inputs jins -> Forall Pot.adc_inputs pins ->
  Forall (fun e => line_length_in 11 18 (Joystick.line_of e))
         (Joystick.events (snd (Joystick.run Joystick.init jins))) /\
  Forall (fun e => line_length_in 9 13 (Pot.line_of e))
         (Pot.events (snd (Pot.run Pot.init pins))).
Proof.
  intros Hj Hp.
  assert (L : forall n lo, 0 <= lo -> lo <= n <= 9999 ->
              (String.length (Serial_print lo) <= String.length (Serial_print n) <= 4)%nat).
  { intros n lo Hlo Hn. rewrite !Serial_print_length by lia.
    destruct (Z.ltb_spec n 10), (Z.ltb_spec n 100), (Z.ltb_spec n 1000),
      (Z.ltb_spec lo 10), (Z.ltb_spec lo 100), (Z.ltb_spec lo 1000); lia. }
  assert (W : forall w, 0 <= w <= 7 -> String.length (Serial_print w) = 1%nat).
  { intros w Hw. rewrite Serial_print_length by lia.
    destruct (Z.ltb_spec w 10); [reflexivity|lia]. }
  split.
  - assert (F : Joystick.freq_ok Joystick.init) by (unfold Joystick.freq_ok; simpl; lia).
    assert (V : Joystick.wave_ok Joystick.init) by (unfold Joystick.wave_ok; simpl; lia).
    eapply Forall_impl; [|exact (joy_run_fields jins _ F V Hj)].
    intros [p f x y w|ms]; [|intros _; exact I].
    unfold Joystick.adc. intros (Hf & Hx & Hy & Hw).
    unfold line_length_in, Joystick.line_of, Joystick.wire.
    rewrite !field_comma_length, Serial_println_length, (W w Hw).
    pose proof (L f 100 ltac:(lia) ltac:(lia)) as Lf.
    pose proof (L x 0 ltac:(lia) ltac:(lia)) as Lx.
    pose proof (L y 0 ltac:(lia) ltac:(lia)) as Ly.
    change (String.length (Serial_print 100)) with 3%nat in Lf.
    change (String.length (Serial_print 0)) with 1%nat in Lx, Ly.
    lia.
  - assert (F : Pot.freq_ok Pot.init) by (unfold Pot.freq_ok; simpl; lia).
    assert (V : Pot.wave_ok Pot.init) by (unfold Pot.wave_ok; simpl; lia).
    eapply Forall_impl; [|exact (pot_run_fields pins _ F V Hp)].
    intros [p f x w|ms]; [|intros _; exact I].
    unfold Pot.adc. intros (Hf & Hx & Hw).
    unfold line_length_in, Pot.line_of, Pot.wire.
    rewrite !field_comma_length, Serial_println_length, (W w Hw).
    pose proof (L f 100 ltac:(lia) ltac:(lia)) as Lf.
    pose proof (L x 0 ltac:(lia) ltac:(lia)) as Lx.
    change (String.length (Serial_print 100)) with 3%nat in Lf.
    change (String.length (Serial_print 0)) with 1%nat in Lx.
    lia.
Qed.

Lemma X5_line_length_witness :
  Forall Joystick.adc_inputs Joystick.session /\
  Forall Pot.adc_inputs Pot.session /\
  Forall (fun e => line_length_in 11 18 (Joystick.line_of e))
         (Joystick.events (snd (Joystick.run Joystick.init Joystick.session))) /\
  Forall (fun e => line_length_in 9 13 (Pot.line_of e))
         (Pot.events (snd (Pot.run Pot.init Pot.session))).
Proof.
  assert (Hj : Forall Joystick.adc_inputs Joystick.session).
  { repeat constructor; simpl; lia. }
  assert (Hp : Forall Pot.adc_inputs Pot.session).
  { repeat constructor; simpl; lia. }
  split; [exact Hj|]. split; [exact Hp|].
  exact (X5_line_length Joystick.session Pot.session Hj Hp).
Defined.

(** X6: when the last periodic line was written at true uptime [t0] and
    less than 2^32 ms have passed since, an iteration at true uptime [t]
    writes a periodic line exactly when [t - t0 >= 20], also when [t] lies
    beyond the rollover of [millis()] and [t0] before it. *)
Theorem X6_rollover_safe
    (jg : Joystick.Globals) (ji : Joystick.Inputs) (pg : Pot.Globals) (pi : Pot.Inputs)
    (t0 : Z) :
  Joystick.lastSendTime jg = millis t0 ->
  0 <= Joystick.uptime ji - t0 < 4294967296 ->
  Pot.lastSendTime pg = millis t0 ->
  0 <= Pot.uptime pi - t0 < 4294967296 ->
  existsb Joystick.is_periodic (snd (Joystick.loop jg ji))
    = (20 <=? Joystick.uptime ji - t0) /\
  Joystick.lastSendTime (fst (Joystick.loop jg ji))
    = millis (if 20 <=? Joystick.uptime ji - t0 then Joystick.uptime ji else t0) /\
  existsb Pot.is_periodic (snd (Pot.loop pg pi)) = (20 <=? Pot.uptime pi - t0) /\
  Pot.lastSendTime (fst (Pot.loop pg pi))
    = millis (if 20 <=? Pot.uptime pi - t0 then Pot.uptime pi else t0).
Proof.
  intros Hj Hjt Hp Hpt.
  pose proof (joy_due_true_difference jg ji t0 Hj Hjt) as Dj.
  pose proof (pot_due_true_difference pg pi t0 Hp Hpt) as Dp.
  repeat split.
  - rewrite joy_loop_periodic. exact Dj.
  - rewrite joy_loop_lastSendTime, Dj.
    destruct (20 <=? Joystick.uptime ji - t0); [reflexivity|exact Hj].
  - rewrite pot_loop_periodic. exact Dp.
  - rewrite pot_loop_lastSendTime, Dp.
    destruct (20 <=? Pot.uptime pi - t0); [reflexivity|exact Hp].
Qed.

Lemma X6_rollover_safe_witness :
  millis 4294967291 = 4294967291 /\
  millis (4294967296 + 20) = 20 /\
  existsb Joystick.is_periodic
    (snd (Joystick.loop
            {| Joystick.freq := 100; Joystick.waveformType := 0;
               Joystick.lastJoyButtonState := HIGH; Joystick.lastSendTime := 4294967291 |}
            (Joystick.idle (4294967296 + 20)))) = true /\
  existsb Pot.is_periodic
    (snd (Pot.loop
            {| Pot.freq := 100; Pot.waveformType := 0;
               Pot.lastButtonState := HIGH; Pot.lastSendTime := 4294967291 |}
            (Pot.idle (4294967296 + 20)))) = true.
Proof.
  split; [reflexivity|]. split; [reflexivity|].
  pose proof (X6_rollover_safe
                {| Joystick.freq := 100; Joystick.waveformType := 0;
                   Joystick.lastJoyButtonState := HIGH; Joystick.lastSendTime := 4294967291 |}
                (Joystick.idle (4294967296 + 20))
                {| Pot.freq := 100; Pot.waveformType := 0;
                   Pot.lastButtonState := HIGH; Pot.lastSendTime := 4294967291 |}
                (Pot.idle (4294967296 + 20))
                4294967291 eq_refl ltac:(simpl; lia) eq_refl ltac:(simpl; lia)) as H.
  split; [exact (proj1 H)|exact (proj1 (proj2 (proj2 H)))].
Defined.

(** X7: before the rollover of [millis()], an iteration that reads the
    uptime at least 20 ms after the previous iteration did (after the
    start, for the first one) always writes a periodic line; this is so
    after the 200 ms debounce delay, hence a press puts two lines with the
    new selector on the wire, the immediate and the periodic one. *)
Theorem X7_periodic_line_after_20ms
    (jins : list Joystick.Inputs) (ji : Joystick.Inputs)
    (pins : list Pot.Inputs) (pi : Pot.Inputs) :
  monotone (0 :: List.map Joystick.uptime jins) ->
  before_rollover (List.map Joystick.uptime jins) ->
  last (List.map Joystick.uptime jins) 0 + 20 <= Joystick.uptime ji < 4294967296 ->
  monotone (0 :: List.map Pot.uptime pins) ->
  before_rollover (List.map Pot.uptime pins) ->
  last (List.map Pot.uptime pins) 0 + 20 <= Pot.uptime pi < 4294967296 ->
  (let g := fst (Joystick.run Joystick.init jins) in
   let g' := fst (Joystick.loop g ji) in
   snd (Joystick.loop g ji) =
     (if Joystick.falling_edge g ji
      then [Joystick.Tx Immediate (Joystick.freq g) (Joystick.pressX ji)
                        (Joystick.pressY ji) (Joystick.waveformType g');
            Joystick.Delay 200]
      else [])
     ++ [Joystick.Tx Periodic (Joystick.freq g) (Joystick.joyX ji) (Joystick.joyY ji)
                     (Joystick.waveformType g');
         Joystick.Delay 5]) /\
  (let g := fst (Pot.run Pot.init pins) in
   let g' := fst (Pot.loop g pi) in
   snd (Pot.loop g pi) =
     (if Pot.falling_edge g pi
      then [Pot.Tx Immediate (Pot.freq g) (Pot.pressPot pi) (Pot.waveformType g');
            Pot.Delay 200]
      else [])
     ++ [Pot.Tx Periodic (Pot.freq g) (Pot.pot pi) (Pot.waveformType g');
         Pot.Delay 5]).
Proof.
  intros Mj Rj Uj Mp Rp Up. split; cbv zeta.
  - pose proof (joy_last_send_le jins Joystick.init 0 ltac:(simpl; lia) Mj Rj) as L.
    set (g := fst (Joystick.run Joystick.init jins)) in *.
    assert (D : Joystick.due g ji = true).
    { rewrite (joy_due_true_difference g ji (Joystick.lastSendTime g)).
      - apply Z.leb_le. lia.
      - symmetry. apply millis_small. lia.
      - lia. }
    rewrite joy_loop_events, D. reflexivity.
  - pose proof (pot_last_send_le pins Pot.init 0 ltac:(simpl; lia) Mp Rp) as L.
    set (g := fst (Pot.run Pot.init pins)) in *.
    assert (D : Pot.due g pi = true).
    { rewrite (pot_due_true_difference g pi (Pot.lastSendTime g)).
      - apply Z.leb_le. lia.
      - symmetry. apply millis_small. lia.
      - lia. }
    rewrite pot_loop_events, D. reflexivity.
Qed.

Lemma X7_periodic_line_after_20ms_witness :
  monotone (0 :: List.map Joystick.uptime Joystick.session) /\
  before_rollover (List.map Joystick.uptime Joystick.session) /\
  last (List.map Joystick.uptime Joystick.session) 0 = 1225 /\
  snd (Joystick.loop (fst (Joystick.run Joystick.init Joystick.session))
         {| Joystick.button := LOW; Joystick.pressX := 10; Joystick.pressY := 20;
            Joystick.joyX := 30; Joystick.joyY := 40; Joystick.uptime := 1430 |}) =
  [ Joystick.Tx Immediate 304 10 20 2; Joystick.Delay 200;
    Joystick.Tx Periodic 304 30 40 2; Joystick.Delay 5 ].
Proof.
  assert (Mj : monotone (0 :: List.map Joystick.uptime Joystick.session)).
  { unfold monotone. simpl. repeat constructor; lia. }
  assert (Rj : before_rollover (List.map Joystick.uptime Joystick.session)).
  { unfold before_rollover. simpl. repeat constructor; lia. }
  assert (Mp : monotone (0 :: List.map Pot.uptime Pot.session)).
  { unfold monotone. simpl. repeat constructor; lia. }
  assert (Rp : before_rollover (List.map Pot.uptime Pot.session)).
  { unfold before_rollover. simpl. repeat constructor; lia. }
  split; [exact Mj|]. split; [exact Rj|]. split; [reflexivity|].
  exact (proj1 (X7_periodic_line_after_20ms
                  Joystick.session
                  {| Joystick.button := LOW; Joystick.pressX := 10; Joystick.pressY := 20;
                     Joystick.joyX := 30; Joystick.joyY := 40; Joystick.uptime := 1430 |}
                  Pot.session (Pot.idle 1430)
                  Mj Rj ltac:(simpl; lia) Mp Rp ltac:(simpl; lia))).
Defined.

(** X8: the potentiometer sketch is the joystick sketch without the Y
    axis: run on the same button, X and uptime readings it goes through
    the same globals and writes the same events, each line lacking the Y
    field only; and every run of the potentiometer sketch arises so. *)
Theorem X8_pot_is_joystick_without_Y
    (g : Joystick.Globals) (jins : list Joystick.Inputs)
    (pins : list Pot.Inputs) (y : Z) :
  Pot.run (pot_globals g) (List.map pot_inputs jins) =
    (pot_globals (fst (Joystick.run g jins)), pot_trace (snd (Joystick.run g jins))) /\
  Pot.run Pot.init pins =
    (pot_globals (fst (Joystick.run Joystick.init (List.map (joy_inputs y) pins))),
     pot_trace (snd (Joystick.run Joystick.init (List.map (joy_inputs y) pins)))).
Proof.
  split.
  - apply pot_run_of_joy.
  - rewrite <- pot_run_of_joy, pot_inputs_joy. reflexivity.
Qed.
